(** * gollo: a concurrent weather aggregator (main.go)

    The program asks three weather services for the temperature of a city,
    each in a goroutine of its own, and averages what comes back.  This file
    embeds main.go in Rocq and proves what the aggregation, the adapters and
    the constructor do.

    - float64 is Rocq's primitive binary64 [float]; sums and the final
      division are the IEEE operations, in the order the code performs them.
    - encoding/json is modelled on parsed documents ([json]): the decoders
      below follow Unmarshal on the struct shapes main.go declares.  How a
      struct field is matched against an object key is a parameter
      ([key_matches]), as are net/http ([get]), os.Open ([open]) and
      strconv.FormatFloat ([formatFloat]).
    - goroutines and channels are a transition system: a [state] holds the two
      buffered channels, the goroutines and the position of the calling
      goroutine; a scheduler picks the next [action]; [step] is the effect of
      an action and [exec] runs a schedule.  Time is counted in milliseconds
      spent waiting inside [select]. *)

From Stdlib Require Import ZArith Floats Uint63 Lia.
From stdpp Require Import base option list sets strings.

Set Warnings "-inexact-float,-register-all,-clear-no-such-hyp".
Set Default Proof Using "Type".

(** * Part I: the program *)

(** ** float64 *)

Module F64.

Definition zero : float := PrimFloat.zero.

Definition add (x y : float) : float := PrimFloat.add x y.

Definition div (x y : float) : float := PrimFloat.div x y.

(** [float64(n)] for a Go [int] that holds a length (0 <= n < 2^63). *)
Definition of_int (n : nat) : float :=
  PrimFloat.of_uint63 (Uint63.of_Z (Z.of_nat n)).

(** [sum := 0.0; for ... { sum += temp }] over the values in [l], in order. *)
Definition sum (l : list float) : float := foldl add zero l.

(** 0 degrees Celsius in kelvin, the constant the adapters add. *)
Definition kelvin_offset : float := 273.15%float.

End F64.

(** ** Exact sums *)

(** The value of a finite float64 as a multiple of 2^-1074, the smallest
    positive float64; every finite float64 is such a multiple. *)
Definition scaled (x : float) : option Z :=
  match Prim2SF x with
  | S754_zero _ => Some 0%Z
  | S754_finite s m e => Some (SpecFloat.cond_Zopp s (Zpos m) * 2 ^ (e + 1074))%Z
  | _ => None
  end.

(** [x + y] is computed without rounding. *)
Definition exact_add (x y : float) : bool :=
  match scaled x, scaled y, scaled (F64.add x y) with
  | Some a, Some b, Some c => (c =? a + b)%Z
  | _, _, _ => false
  end.

(** Every addition of [sum += temp] over [l], starting from [acc], is
    exact. *)
Fixpoint exact_from (acc : float) (l : list float) : bool :=
  match l with
  | [] => true
  | temp :: l' => exact_add acc temp && exact_from (F64.add acc temp) l'
  end.

Definition exact_sum (l : list float) : bool := exact_from F64.zero l.

Definition value (x : float) : Z := default 0%Z (scaled x).

Definition total (l : list float) : Z := foldr (λ x z, value x + z)%Z 0%Z l.

(** ** Errors and results *)

(** Go's [error] values that can appear: the ones net/http, encoding/json
  and os return.  The program never inspects them. *)
Inductive error :=
| TransportError (msg : string)
| SyntaxError (msg : string)
| UnmarshalTypeError (field : string)
| PathError (msg : string).

(** What a call of [temperature] does: it returns Go's pair
  [(float64, error)], or it panics. *)
Inductive outcome :=
| Return (k : float) (err : option error)
| Panic (msg : string).

(** ** encoding/json on parsed documents *)

Module Json.

Inductive json :=
| JNull
| JBool (b : bool)
| JNumber (x : float)
| JString (s : string)
| JArray (items : list json)
| JObject (members : list (string * json)).

(** What a reader holds: a document, or bytes that are not one. *)
Inductive body :=
| Malformed (e : error)
| Document (j : json).

(** A decoder updates the Go value [old] from a document and reports the
    first error it met, as Unmarshal does: it goes on after a type error
    and returns the error saved first. *)
Definition decoder (T : Type) := json -> T -> T * option error.

Definition first_error (saved new : option error) : option error :=
  match saved with
  | Some _ => saved
  | None => new
  end.

Definition decode_float64 (name : string) : decoder float :=
  fun j old =>
    match j with
    | JNumber x => (x, None)
    | JNull => (old, None)
    | _ => (old, Some (UnmarshalTypeError name))
    end.

Definition decode_string (name : string) : decoder string :=
  fun j old =>
    match j with
    | JString s => (s, None)
    | JNull => (old, None)
    | _ => (old, Some (UnmarshalTypeError name))
    end.

(** A struct: the members of the object are applied in order; [field k]
    is what the member with key [k] does to the struct. *)
Definition decode_struct {T} (name : string) (field : string -> decoder T)
  : decoder T :=
  fun j old =>
    match j with
    | JObject members =>
        foldl (fun acc m =>
                 let '(v, err) := field (fst m) (snd m) (fst acc) in
                 (v, first_error (snd acc) err))
              (old, None) members
    | JNull => (old, None)
    | _ => (old, Some (UnmarshalTypeError name))
    end.

(** A slice: element [i] of the array is decoded into element [i] of the
    slice when it has one and into a zero value otherwise; the slice ends
    with the length of the array.  [null] makes the slice nil. *)
Fixpoint decode_elements {T} (elem : decoder T) (zero : T)
  (items : list json) (old : list T) : list T * option error :=
  match items with
  | [] => ([], None)
  | j :: items' =>
      let '(v, err) := elem j (hd zero old) in
      let '(vs, errs) := decode_elements elem zero items' (tl old) in
      (v :: vs, first_error err errs)
  end.

Definition decode_slice {T} (name : string) (elem : decoder T) (zero : T)
  : decoder (list T) :=
  fun j old =>
    match j with
    | JArray items => decode_elements elem zero items old
    | JNull => ([], None)
    | _ => (old, Some (UnmarshalTypeError name))
    end.

(** [json.NewDecoder(r).Decode(&v)]: the error, and [v] afterwards. *)
Definition Decode {T} (dec : decoder T) (b : body) (v : T) : T * option error :=
  match b with
  | Malformed e => (v, Some e)
  | Document j => dec j v
  end.

End Json.

(** ** The adapters *)

(** [weatherProvider] is an interface with one method; a type implements it
    by an instance of [Implements]. *)
Class Implements (T : Type) := temperature : T -> string -> outcome.

(** A value of the interface type: a value of some implementing type. *)
Inductive weatherProvider :=
| Provider {T : Type} `{Implements T} (self : T).

(** [p.temperature(city)] on an interface value. *)
Definition call (p : weatherProvider) (city : string) : outcome :=
  match p with
  | Provider self => temperature self city
  end.

(** [type multiWeatherProvider []weatherProvider] *)
Abbreviation multiWeatherProvider := (list weatherProvider).

(** What [http.Get] returns: an error, or a response with a body. *)
Inductive response :=
| GetError (e : error)
| Response (b : Json.body).

(** What [os.Open] returns: an error, or a file with its content. *)
Inductive file :=
| OpenError (e : error)
| File (b : Json.body).

(** The struct main.go decodes openweathermap's answer into. *)
Record owmMain := { Kelvin : float }.
Record owmDoc := { Main : owmMain }.

(** The struct for wunderground's answer. *)
Record wuObservation := { Celsius : float }.
Record wuDoc := { Observation : wuObservation }.

(** The struct for forecast.io's answer. *)
Record fioCurrently := { Temperature : float }.
Record fioDoc := { Currently : fioCurrently }.

(** The struct for the geocoder's answer. *)
Record geoLocation := { Latitude : float; Longitude : float }.
Record geoGeometry := { Location : geoLocation }.
Record geoResult := { Geometry : geoGeometry }.
Record geoDoc := { Results : list geoResult }.

(** The struct for conf.json. *)
Record confKey := { ApiKey : string }.
Record conf := { WeatherUnderground : confKey; ForecastIo : confKey }.

(** The three adapter types. *)
Record openWeatherMap := {}.
Record weatherUnderground := { wu_apiKey : string }.
Record forecastIo := { fio_apiKey : string }.

Section Adapters.

Import Json.

(** [key_matches name k]: the object key [k] selects the struct field whose
    JSON name is [name] (encoding/json compares them without regard to
    case). *)
Variable key_matches : string -> string -> bool.

(** The network: what [http.Get] returns for a URL, during this call. *)
Variable get : string -> response.

(** [strconv.FormatFloat(x, 'f', -1, 64)]. *)
Variable formatFloat : float -> string.

(** A struct with the single field [name]. *)
Definition one_field {T U} (name : string) (dec : decoder U)
  (proj : T -> U) (mk : U -> T) : string -> decoder T :=
  fun k j old =>
    if key_matches name k
    then let '(v, err) := dec j (proj old) in (mk v, err)
    else (old, None).

Definition decode_owmMain : decoder owmMain :=
  decode_struct "main"
    (one_field "temp" (decode_float64 "temp") Kelvin Build_owmMain).

Definition decode_owmDoc : decoder owmDoc :=
  decode_struct "" (one_field "main" decode_owmMain Main Build_owmDoc).

Definition decode_wuObservation : decoder wuObservation :=
  decode_struct "current_observation"
    (one_field "temp_c" (decode_float64 "temp_c") Celsius Build_wuObservation).

Definition decode_wuDoc : decoder wuDoc :=
  decode_struct ""
    (one_field "current_observation" decode_wuObservation
       Observation Build_wuDoc).

Definition decode_fioCurrently : decoder fioCurrently :=
  decode_struct "currently"
    (one_field "temperature" (decode_float64 "temperature")
       Temperature Build_fioCurrently).

Definition decode_fioDoc : decoder fioDoc :=
  decode_struct ""
    (one_field "currently" decode_fioCurrently Currently Build_fioDoc).

(** Two fields: the first one whose name matches the key takes the value. *)
Definition decode_geoLocation : decoder geoLocation :=
  decode_struct "location"
    (fun k j old =>
       if key_matches "lat" k
       then let '(v, err) := decode_float64 "lat" j (Latitude old) in
            ({| Latitude := v; Longitude := Longitude old |}, err)
       else if key_matches "lng" k
       then let '(v, err) := decode_float64 "lng" j (Longitude old) in
            ({| Latitude := Latitude old; Longitude := v |}, err)
       else (old, None)).

Definition decode_geoGeometry : decoder geoGeometry :=
  decode_struct "geometry"
    (one_field "location" decode_geoLocation Location Build_geoGeometry).

Definition decode_geoResult : decoder geoResult :=
  decode_struct "results"
    (one_field "geometry" decode_geoGeometry Geometry Build_geoResult).

Definition zero_geoResult : geoResult :=
  {| Geometry := {| Location := {| Latitude := F64.zero;
                                   Longitude := F64.zero |} |} |}.

Definition decode_geoDoc : decoder geoDoc :=
  decode_struct ""
    (one_field "results"
       (decode_slice "results" decode_geoResult zero_geoResult)
       Results Build_geoDoc).

(** [func (w openWeatherMap) temperature(city string) (float64, error)] *)
Definition openWeatherMap_temperature (w : openWeatherMap) (city : string)
  : outcome :=
  match get ("http://api.openweathermap.org/data/2.5/weather?q=" +:+ city) with
  | GetError err => Return F64.zero (Some err)
  | Response b =>
      match Decode decode_owmDoc b {| Main := {| Kelvin := F64.zero |} |} with
      | (_, Some err) => Return F64.zero (Some err)
      | (d, None) => Return (Kelvin (Main d)) None
      end
  end.

(** [func (w weatherUnderground) temperature(city string) (float64, error)] *)
Definition weatherUnderground_temperature (w : weatherUnderground)
  (city : string) : outcome :=
  match get ("http://api.wunderground.com/api/" +:+ wu_apiKey w
             +:+ "/conditions/q/" +:+ city +:+ ".json") with
  | GetError err => Return F64.zero (Some err)
  | Response b =>
      match Decode decode_wuDoc b
              {| Observation := {| Celsius := F64.zero |} |} with
      | (_, Some err) => Return F64.zero (Some err)
      | (d, None) =>
          let kelvin := F64.add (Celsius (Observation d)) F64.kelvin_offset in
          Return kelvin None
      end
  end.

(** [func (w forecastIo) temperature(city string) (float64, error)].
    [location.Results[0]] panics when the slice is empty. *)
Definition forecastIo_temperature (w : forecastIo) (city : string) : outcome :=
  match get ("https://maps.googleapis.com/maps/api/geocode/json?address="
             +:+ city) with
  | GetError err => Return F64.zero (Some err)
  | Response locationBody =>
      match Decode decode_geoDoc locationBody {| Results := [] |} with
      | (_, Some err) => Return F64.zero (Some err)
      | (location, None) =>
          match Results location with
          | [] => Panic "runtime error: index out of range [0] with length 0"
          | r0 :: _ =>
              let latitude := formatFloat (Latitude (Location (Geometry r0))) in
              let longitude := formatFloat (Longitude (Location (Geometry r0))) in
              match get ("https://api.forecast.io/forecast/" +:+ fio_apiKey w
                         +:+ "/" +:+ latitude +:+ "," +:+ longitude
                         +:+ "?units=si") with
              | GetError err => Return F64.zero (Some err)
              | Response b =>
                  match Decode decode_fioDoc b
                          {| Currently := {| Temperature := F64.zero |} |} with
                  | (_, Some err) => Return F64.zero (Some err)
                  | (d, None) =>
                      let kelvin :=
                        F64.add (Temperature (Currently d)) F64.kelvin_offset in
                      Return kelvin None
                  end
              end
          end
      end
  end.

#[local] Instance openWeatherMap_provider : Implements openWeatherMap :=
  openWeatherMap_temperature.

#[local] Instance weatherUnderground_provider : Implements weatherUnderground :=
  weatherUnderground_temperature.

#[local] Instance forecastIo_provider : Implements forecastIo :=
  forecastIo_temperature.

(** The file system: what [os.Open] returns for a path. *)
Variable open : string -> file.

Definition decode_confKey (name : string) : decoder confKey :=
  decode_struct name
    (one_field "ApiKey" (decode_string "ApiKey") ApiKey Build_confKey).

Definition decode_conf : decoder conf :=
  decode_struct ""
    (fun k j old =>
       if key_matches "WeatherUnderground" k
       then let '(v, err) :=
              decode_confKey "WeatherUnderground" j (WeatherUnderground old) in
            ({| WeatherUnderground := v; ForecastIo := ForecastIo old |}, err)
       else if key_matches "ForecastIo" k
       then let '(v, err) :=
              decode_confKey "ForecastIo" j (ForecastIo old) in
            ({| WeatherUnderground := WeatherUnderground old;
                ForecastIo := v |}, err)
       else (old, None)).

(** [func getMultiWeatherProvider(confFile string) (mw multiWeatherProvider, err error)] *)
Definition getMultiWeatherProvider (confFile : string)
  : multiWeatherProvider * option error :=
  match open confFile with
  | OpenError err => ([], Some err)
  | File b =>
      match Decode decode_conf b
              {| WeatherUnderground := {| ApiKey := "" |};
                 ForecastIo := {| ApiKey := "" |} |} with
      | (_, Some err) => ([], Some err)
      | (c, None) =>
          ([ Provider (Build_openWeatherMap);
             Provider {| wu_apiKey := ApiKey (WeatherUnderground c) |};
             Provider {| fio_apiKey := ApiKey (ForecastIo c) |} ],
           None)
      end
  end.

End Adapters.

(** ** Documents without a field *)

Section Fields.

Import Json.

Variable key_matches : string -> string -> bool.

(** No member of the object selects the field [name]. *)
Definition lacks (name : string) (members : list (string * json)) : Prop :=
  Forall (λ m, key_matches name m.1 = false) members.


End Fields.

(** ** Channels *)

(** A buffered channel: the values sent and not yet received, oldest first,
    and the capacity it was made with. *)
Record chan (A : Type) := Chan { buf : list A; cap : nat }.
Arguments Chan {A} buf cap.
Arguments buf {A} c.
Arguments cap {A} c.

(** [make(chan A, n)] *)
Definition make {A} (n : nat) : chan A := Chan [] n.

(** [c <- x] goes through when the buffer has room, and blocks otherwise
    (nobody waits to receive while the sender runs: the buffer is the only
    way through). *)
Definition send {A} (x : A) (c : chan A) : option (chan A) :=
  if decide (length (buf c) < cap c)
  then Some (Chan (buf c ++ [x]) (cap c))
  else None.

(** [<-c] is ready when the buffer is not empty. *)
Definition recv {A} (c : chan A) : option (A * chan A) :=
  match buf c with
  | [] => None
  | x :: rest => Some (x, Chan rest (cap c))
  end.

(** ** The aggregator as a transition system *)

(** [time.Millisecond * 1500] *)
Definition deadline : N := 1500.

(** A goroutine started by [go func(p weatherProvider) {...}(provider)]:
    it calls the provider, then sends on one of the channels, then ends. *)
Inductive goroutine :=
| Calling (p : weatherProvider)
| SendingErr (err : error)
| SendingTemp (k : float)
| Exited.

(** Where the goroutine that called [multiWeatherProvider.temperature] is:
    - [Spawning k]: in the [range] loop, about to start goroutine [k];
    - [Selecting i sum waited]: at the head of the second loop with counter
      [i], the running [sum], and [waited] ms spent in the current [select];
    - [Returned k err]: the method has returned [(k, err)]. *)
Inductive position :=
| Spawning (k : nat)
| Selecting (i : nat) (sum : float) (waited : N)
| Returned (k : float) (err : option error).

Record state := State {
  providers : multiWeatherProvider;   (* the receiver [w] *)
  temps : chan float;
  errs : chan error;
  goroutines : list goroutine;
  pc : position;
  clock : N;                          (* ms spent waiting in [select] so far *)
  panicked : bool                     (* a goroutine panicked: the process died *)
}.

Definition set_temps (c : chan float) (s : state) : state :=
  State (providers s) c (errs s) (goroutines s) (pc s) (clock s) (panicked s).

Definition set_errs (c : chan error) (s : state) : state :=
  State (providers s) (temps s) c (goroutines s) (pc s) (clock s) (panicked s).

Definition set_goroutines (g : list goroutine) (s : state) : state :=
  State (providers s) (temps s) (errs s) g (pc s) (clock s) (panicked s).

Definition set_pc (p : position) (s : state) : state :=
  State (providers s) (temps s) (errs s) (goroutines s) p (clock s) (panicked s).

Definition set_clock (t : N) (s : state) : state :=
  State (providers s) (temps s) (errs s) (goroutines s) (pc s) t (panicked s).

Definition set_panicked (s : state) : state :=
  State (providers s) (temps s) (errs s) (goroutines s) (pc s) (clock s) true.

(** What the scheduler can let happen next. *)
Inductive action :=
| Spawn               (* the caller starts the next goroutine *)
| Begin               (* the caller leaves the [range] loop: [sum := 0.0] *)
| Call (j : nat)      (* goroutine [j]'s call of the provider returns *)
| Send (j : nat)      (* goroutine [j] sends its result and ends *)
| Wait (d : N)        (* the caller waits [d] more ms in [select] *)
| RecvTemp            (* [case temp := <-temps] *)
| RecvErr             (* [case err := <-errs] *)
| Timeout             (* [case <-time.After(...)] *)
| Finish.             (* the caller leaves the loop and returns the average *)

Section Aggregator.

Variable city : string.

(** The state after [temps := make(...)] and [errs := make(...)]. *)
Definition init (w : multiWeatherProvider) : state :=
  {| providers := w;
     temps := make (length w);
     errs := make (length w);
     goroutines := [];
     pc := Spawning 0;
     clock := 0;
     panicked := false |}.

(** The body of the goroutine up to its send. *)
Definition after_call (p : weatherProvider) : option goroutine :=
  match call p city with
  | Return _ (Some err) => Some (SendingErr err)
  | Return k None => Some (SendingTemp k)
  | Panic _ => None
  end.

Definition step_goroutine_call (j : nat) (s : state) : option state :=
  match goroutines s !! j with
  | Some (Calling p) =>
      match after_call p with
      | Some g => Some (set_goroutines (<[j := g]> (goroutines s)) s)
      | None => Some (set_panicked s)
      end
  | _ => None
  end.

Definition step_goroutine_send (j : nat) (s : state) : option state :=
  match goroutines s !! j with
  | Some (SendingErr err) =>
      c ← send err (errs s);
      Some (set_goroutines (<[j := Exited]> (goroutines s)) (set_errs c s))
  | Some (SendingTemp k) =>
      c ← send k (temps s);
      Some (set_goroutines (<[j := Exited]> (goroutines s)) (set_temps c s))
  | _ => None
  end.

(** One step of the program.  [None]: the action cannot happen in [s]. *)
Definition step (a : action) (s : state) : option state :=
  if panicked s then None else
  match a, pc s with
  | Spawn, Spawning k =>
      p ← providers s !! k;
      Some (set_pc (Spawning (S k))
              (set_goroutines (goroutines s ++ [Calling p]) s))
  | Begin, Spawning k =>
      match providers s !! k with
      | None => Some (set_pc (Selecting 0 F64.zero 0) s)
      | Some _ => None
      end
  | Call j, _ => step_goroutine_call j s
  | Send j, _ => step_goroutine_send j s
  | Wait d, Selecting i sum waited =>
      if decide (i < length (providers s) ∧ (0 < d)%N ∧ (waited + d <= deadline)%N)
      then Some (set_clock (clock s + d) (set_pc (Selecting i sum (waited + d)) s))
      else None
  | RecvTemp, Selecting i sum waited =>
      if decide (i < length (providers s))
      then '(temp, c) ← recv (temps s);
           Some (set_pc (Selecting (S i) (F64.add sum temp) 0) (set_temps c s))
      else None
  | RecvErr, Selecting i sum waited =>
      if decide (i < length (providers s))
      then '(err, c) ← recv (errs s);
           Some (set_pc (Returned F64.zero (Some err)) (set_errs c s))
      else None
  | Timeout, Selecting i sum waited =>
      if decide (i < length (providers s) ∧ waited = deadline)
      then Some (set_pc (Selecting (S i) sum 0) s)
      else None
  | Finish, Selecting i sum waited =>
      if decide (i < length (providers s))
      then None
      else Some (set_pc (Returned (F64.div sum (F64.of_int (length (providers s))))
                           None) s)
  | _, _ => None
  end.

(** Run a schedule. *)
Fixpoint exec (sch : list action) (s : state) : option state :=
  match sch with
  | [] => Some s
  | a :: sch' => s' ← step a s; exec sch' s'
  end.

(** The states a call on [w] can be in. *)
Definition reachable (w : multiWeatherProvider) (s : state) : Prop :=
  ∃ sch, exec sch (init w) = Some s.

End Aggregator.

#[export] Instance action_eq_dec : EqDecision action.
Proof. solve_decision. Defined.

Section Observations.

Variable city : string.

(** The caller's actions, as opposed to the goroutines'. *)
Definition is_caller (a : action) : bool :=
  match a with
  | Call _ | Send _ => false
  | _ => true
  end.

(** An attempt of the second loop ends with one of these. *)
Definition is_attempt (a : action) : bool :=
  match a with
  | RecvTemp | RecvErr | Timeout => true
  | _ => false
  end.

Definition timeouts (sch : list action) : nat :=
  length (filter (λ a, a = Timeout) sch).

Definition attempts (sch : list action) : nat :=
  length (filter (λ a, is_attempt a = true) sch).

Definition caller_steps (sch : list action) : nat :=
  length (filter (λ a, is_caller a = true) sch).

(** What action [a] makes the caller receive from [temps] in state [s]. *)
Definition received_by (a : action) (s : state) : list float :=
  match a, step city a s, buf (temps s) with
  | RecvTemp, Some _, temp :: _ => [temp]
  | _, _, _ => []
  end.

(** The temperatures the caller received along a schedule, in the order
    of arrival. *)
Fixpoint received (sch : list action) (s : state) : list float :=
  match sch with
  | [] => []
  | a :: sch' =>
      match step city a s with
      | Some s' => received_by a s ++ received sch' s'
      | None => []
      end
  end.

(** What the providers return for [city]: the temperatures of those that
    succeed and the errors of those that fail. *)
Definition result_temp (o : outcome) : list float :=
  match o with
  | Return k None => [k]
  | _ => []
  end.

Definition result_err (o : outcome) : list error :=
  match o with
  | Return _ (Some err) => [err]
  | _ => []
  end.

Definition successes (w : multiWeatherProvider) : list float :=
  w ≫= (λ p, result_temp (call p city)).

Definition failures (w : multiWeatherProvider) : list error :=
  w ≫= (λ p, result_err (call p city)).

(** The temperature a goroutine has yet to send, if any. *)
Definition pending_temp (g : goroutine) : list float :=
  match g with
  | Calling p => result_temp (call p city)
  | SendingTemp k => [k]
  | _ => []
  end.

Definition pending_err (g : goroutine) : list error :=
  match g with
  | Calling p => result_err (call p city)
  | SendingErr err => [err]
  | _ => []
  end.

(** The providers whose goroutine has not been started. *)
Definition unspawned (s : state) : multiWeatherProvider :=
  match pc s with
  | Spawning k => drop k (providers s)
  | _ => []
  end.

Definition has_exited (g : goroutine) : bool :=
  match g with
  | Exited => true
  | _ => false
  end.

Definition exited (gs : list goroutine) : nat :=
  length (filter (λ g, has_exited g = true) gs).

End Observations.

(** ** The step relation *)

(** [step] as a relation, one rule per case of the code. *)
Inductive Step (city : string) : action -> state -> state -> Prop :=
| StepSpawn s k p :
    panicked s = false -> pc s = Spawning k -> providers s !! k = Some p ->
    Step city Spawn s
      (set_pc (Spawning (S k)) (set_goroutines (goroutines s ++ [Calling p]) s))
| StepBegin s k :
    panicked s = false -> pc s = Spawning k -> providers s !! k = None ->
    Step city Begin s (set_pc (Selecting 0 F64.zero 0) s)
| StepCallErr s j p k err :
    panicked s = false -> goroutines s !! j = Some (Calling p) ->
    call p city = Return k (Some err) ->
    Step city (Call j) s (set_goroutines (<[j := SendingErr err]> (goroutines s)) s)
| StepCallTemp s j p k :
    panicked s = false -> goroutines s !! j = Some (Calling p) ->
    call p city = Return k None ->
    Step city (Call j) s (set_goroutines (<[j := SendingTemp k]> (goroutines s)) s)
| StepCallPanic s j p msg :
    panicked s = false -> goroutines s !! j = Some (Calling p) ->
    call p city = Panic msg ->
    Step city (Call j) s (set_panicked s)
| StepSendErr s j err :
    panicked s = false -> goroutines s !! j = Some (SendingErr err) ->
    length (buf (errs s)) < cap (errs s) ->
    Step city (Send j) s
      (set_goroutines (<[j := Exited]> (goroutines s))
         (set_errs (Chan (buf (errs s) ++ [err]) (cap (errs s))) s))
| StepSendTemp s j k :
    panicked s = false -> goroutines s !! j = Some (SendingTemp k) ->
    length (buf (temps s)) < cap (temps s) ->
    Step city (Send j) s
      (set_goroutines (<[j := Exited]> (goroutines s))
         (set_temps (Chan (buf (temps s) ++ [k]) (cap (temps s))) s))
| StepWait s i sum waited d :
    panicked s = false -> pc s = Selecting i sum waited ->
    i < length (providers s) -> (0 < d)%N -> (waited + d <= deadline)%N ->
    Step city (Wait d) s
      (set_clock (clock s + d) (set_pc (Selecting i sum (waited + d)) s))
| StepRecvTemp s i sum waited temp rest :
    panicked s = false -> pc s = Selecting i sum waited ->
    i < length (providers s) -> buf (temps s) = temp :: rest ->
    Step city RecvTemp s
      (set_pc (Selecting (S i) (F64.add sum temp) 0)
         (set_temps (Chan rest (cap (temps s))) s))
| StepRecvErr s i sum waited err rest :
    panicked s = false -> pc s = Selecting i sum waited ->
    i < length (providers s) -> buf (errs s) = err :: rest ->
    Step city RecvErr s
      (set_pc (Returned F64.zero (Some err))
         (set_errs (Chan rest (cap (errs s))) s))
| StepTimeout s i sum :
    panicked s = false -> pc s = Selecting i sum deadline ->
    i < length (providers s) ->
    Step city Timeout s (set_pc (Selecting (S i) sum 0) s)
| StepFinish s i sum waited :
    panicked s = false -> pc s = Selecting i sum waited ->
    ¬ i < length (providers s) ->
    Step city Finish s
      (set_pc (Returned (F64.div sum (F64.of_int (length (providers s)))) None) s).

(** ** What the invariants of a call are made of *)

Section Books.

Variable city : string.

(** The shape of a state: the receiver is untouched, both channels keep the
    capacity they were made with, there are as many goroutines as the
    caller has started, at most one per provider, and only goroutines that
    have ended have put something into a channel. *)
Record shape (w : multiWeatherProvider) (s : state) : Prop := {
  shape_providers : providers s = w;
  shape_temps : cap (temps s) = length w;
  shape_errs : cap (errs s) = length w;
  shape_spawned :
    length (goroutines s) =
      match pc s with
      | Spawning k => k
      | _ => length w
      end;
  shape_bound : length (goroutines s) <= length w;
  shape_sent :
    length (buf (temps s)) + length (buf (errs s)) <= exited (goroutines s)
}.

(** What a run has done so far, read off the caller's position:
    - while spawning, nothing has been received and no time has passed;
    - in the second loop, [i] counts the attempts made, each of which ended
      with a temperature or with a timeout, [sum] is the sum of the
      temperatures in the order they arrived, and the time waited is at
      most [deadline] per attempt;
    - after [return sum / float64(len(w)), nil], all [len(w)] attempts were
      made;
    - after [return 0, err], [err] is an error some provider returned. *)
Definition account (w : multiWeatherProvider) (sch : list action) (s : state)
  : Prop :=
  let got := received city sch (init w) in
  match pc s with
  | Spawning k =>
      k <= length w ∧ got = [] ∧ attempts sch = 0 ∧ clock s = 0%N
  | Selecting i sum waited =>
      i <= length w ∧ sum = F64.sum got ∧ attempts sch = i ∧
      i = length got + timeouts sch ∧ (waited <= deadline)%N ∧
      (i = length w -> waited = 0%N) ∧
      (clock s <= deadline * N.of_nat i + waited)%N
  | Returned k None =>
      k = F64.div (F64.sum got) (F64.of_int (length w)) ∧
      attempts sch = length w ∧
      length w = length got + timeouts sch ∧
      (clock s <= deadline * N.of_nat (length w))%N
  | Returned k (Some err) =>
      k = F64.zero ∧ err ∈ failures city w ∧ attempts sch <= length w ∧
      (clock s <= deadline * N.of_nat (length w))%N
  end.

(** Nothing is lost and nothing is made up: the temperatures received, in
    the channel, and still to be sent are the ones the providers return;
    the errors in the channel or still to be sent are among the ones the
    providers return. *)
Record ledger (w : multiWeatherProvider) (sch : list action) (s : state)
  : Prop := {
  ledger_temps :
    received city sch (init w) ++ buf (temps s)
      ++ (goroutines s ≫= pending_temp city)
      ++ successes city (unspawned s)
    ≡ₚ successes city w;
  ledger_errs :
    buf (errs s) ++ (goroutines s ≫= pending_err city)
      ++ failures city (unspawned s)
    ⊆ failures city w;
  ledger_account : account w sch s
}.

End Books.

(** How many steps the caller can still take: each step of the caller
    uses up at least one. *)
Definition budget (n : nat) (p : position) : nat :=
  match p with
  | Spawning k => (n - k) + n * 1501 + 3
  | Selecting i _ waited => (n - i) * 1501 - N.to_nat waited + 1
  | Returned _ _ => 0
  end.

(** All goroutines are started, then provider 0 answers and is received,
    then provider 1, and so on: nobody is late. *)
Definition in_order (n : nat) : list action :=
  replicate n Spawn ++ [Begin]
    ++ (seq 0 n ≫= λ j, [Call j; Send j; RecvTemp]) ++ [Finish].

(** All goroutines are started and none answers in time: every attempt
    waits for the whole deadline. *)
Definition all_late (n : nat) : list action :=
  replicate n Spawn ++ [Begin]
    ++ (seq 0 n ≫= λ _, [Wait deadline; Timeout]) ++ [Finish].

(** How often goroutine [j] has sent along a schedule. *)
Definition sends (j : nat) (sch : list action) : nat :=
  length (filter (λ a, a = Send j) sch).

Definition sent_once (g : option goroutine) : nat :=
  match g with
  | Some Exited => 1
  | _ => 0
  end.

(** ** Providers and schedules for the examples *)

(** Providers for tests: they return what they hold. *)
Record stub := { stub_outcome : outcome }.

#[export] Instance stub_provider : Implements stub :=
  fun self _ => stub_outcome self.

Definition succeeding (k : float) : weatherProvider :=
  Provider {| stub_outcome := Return k None |}.

Definition failing (err : error) : weatherProvider :=
  Provider {| stub_outcome := Return F64.zero (Some err) |}.

Definition panicking : weatherProvider :=
  Provider {| stub_outcome := Panic "index out of range" |}.

(** The scenario of the specification: 300.0 K, 301.5 K and 298.5 K. *)
Definition three : multiWeatherProvider :=
  [succeeding 300; succeeding 301.5; succeeding 298.5].

(** One provider is too slow for the first attempt, the other two answer:
    (301.5 + 298.5) / 3 = 200, not 300. *)
Definition one_timeout : list action :=
  [Spawn; Spawn; Spawn; Begin; Wait 1500; Timeout; Call 1; Send 1; Call 2;
   Send 2; RecvTemp; RecvTemp; Finish].

(** The second provider fails; its error is received first. *)
Definition second_fails : multiWeatherProvider :=
  [succeeding 300; failing (TransportError "down"); succeeding 298.5].

Definition error_first : list action :=
  [Spawn; Spawn; Spawn; Begin; Call 1; Send 1; Call 0; Send 0].

(** The caller has returned on the error of the second provider; the third
    goroutine is about to send and finds room. *)
Definition after_error : list action :=
  error_first ++ [RecvErr; Call 2].


(** A configuration file with both keys, and a network that is down. *)
Definition conf_json : string -> file :=
  λ _, File (Json.Document (Json.JObject
         [("WeatherUnderground", Json.JObject [("ApiKey", Json.JString "wu")]);
          ("ForecastIo", Json.JObject [("ApiKey", Json.JString "fio")])])).

Definition offline : string -> response :=
  λ _, GetError (TransportError "no route to host").

(** Three providers whose temperatures do not add up exactly. *)
Definition skewed : multiWeatherProvider :=
  [succeeding 280.1; succeeding 290.2; succeeding 300.3].

(** The third provider's temperature arrives before the second's. *)
Definition third_before_second : list action :=
  [Spawn; Spawn; Spawn; Begin; Call 0; Send 0; Call 2; Send 2; Call 1; Send 1;
   RecvTemp; RecvTemp; RecvTemp; Finish].

(** 300.0, 301.5 and 298.5 add up exactly in both orders: 300.0 both
    times. *)
Definition third_first : list action :=
  [Spawn; Spawn; Spawn; Begin; Call 2; Send 2; Call 1; Send 1; Call 0; Send 0;
   RecvTemp; RecvTemp; RecvTemp; Finish].

(** ** One member for a field *)

Section OneMember.

Import Json.

Variable key_matches : string -> string -> bool.

(** Exactly one member of the object selects the field [name]: the member
    with value [v]. *)
Definition only (name : string) (members : list (string * json)) (v : json)
  : Prop :=
  ∃ pre k post, members = pre ++ (k, v) :: post ∧
                key_matches name k = true ∧
                lacks key_matches name pre ∧ lacks key_matches name post.

End OneMember.

(** ** What is left for the goroutines to do *)

(** A goroutine that is calling has two steps to go, one that is about to
    send has one. *)
Definition work (g : goroutine) : nat :=
  match g with
  | Calling _ => 2
  | SendingErr _ | SendingTemp _ => 1
  | Exited => 0
  end.

Definition remaining_work (gs : list goroutine) : nat :=
  foldr (λ g n, work g + n) 0 gs.

(** ** The request handler and the start of the server *)

(** [strings.SplitN(s, sep, n)] for a separator of one byte and [n >= 0]:
    [cut] is the part before the first separator and the part after it. *)
Fixpoint cut (sep : Ascii.ascii) (s : string) : option (string * string) :=
  match s with
  | EmptyString => None
  | String c s' =>
      if Ascii.eqb c sep then Some (EmptyString, s')
      else match cut sep s' with
           | Some (a, b) => Some (String c a, b)
           | None => None
           end
  end.

Fixpoint SplitN (s : string) (sep : Ascii.ascii) (n : nat) : list string :=
  match n with
  | 0 => []
  | S n' =>
      match n' with
      | 0 => [s]
      | S _ =>
          match cut sep s with
          | None => [s]
          | Some (a, b) => a :: SplitN b sep n'
          end
      end
  end.

(** [strings.Join(elems, sep)] *)
Fixpoint Join (elems : list string) (sep : Ascii.ascii) : string :=
  match elems with
  | [] => EmptyString
  | [a] => a
  | a :: elems' => a +:+ String sep (Join elems' sep)
  end.

(** How often the byte [sep] occurs in [s]. *)
Fixpoint occurrences (sep : Ascii.ascii) (s : string) : nat :=
  match s with
  | EmptyString => 0
  | String c s' => (if Ascii.eqb c sep then 1 else 0) + occurrences sep s'
  end.

(** What the handler does to a request:
    - the index expression [...[2]] panics;
    - [http.Error(w, err.Error(), http.StatusInternalServerError)];
    - the header is set and the encoder writes the document, or writes
      nothing when [temp] is a NaN or an infinity, which encoding/json
      refuses. *)
Inductive reply :=
| HandlerPanic
| ErrorReply (code : nat) (text : string)
| JsonReply (contentType : string) (doc : option Json.json).

Section Handler.

(** [err.Error()] *)
Variable Error : error -> string.

(** The byte ['/']. *)
Definition slash : Ascii.ascii :=
  Ascii.Ascii true true true true false true false false.

(** [city := strings.SplitN(r.URL.Path, "/", 3)[2]] *)
Definition path_city (path : string) : option string :=
  SplitN path slash 3 !! 2.

(** The handler after [mw.temperature(city)] has returned [(temp, err)];
    [took] is [time.Since(begin).String()]. *)
Definition respond (city took : string) (temp : float) (err : option error)
  : reply :=
  match err with
  | Some e => ErrorReply 500 (Error e)
  | None =>
      JsonReply "application/json; charset=utf-8"
        (if PrimFloat.is_nan temp || PrimFloat.is_infinity temp then None
         else Some (Json.JObject [("city", Json.JString city);
                                  ("temp", Json.JNumber temp);
                                  ("took", Json.JString took)]))
  end.


End Handler.



(** ** What the caller has taken out of [errs] *)

(** The error the caller has returned with, if any. *)
Definition returned_err (p : position) : list error :=
  match p with
  | Returned _ (Some err) => [err]
  | _ => []
  end.

(** The time the caller has spent in the [select] it is in. *)
Definition waiting (p : position) : N :=
  match p with
  | Selecting _ _ waited => waited
  | _ => 0%N
  end.

(** ** Goroutines and their providers *)

(** What goroutine [g] holds is what provider [p] gave it: it is calling
    [p], or it has [p]'s result for the city. *)
Definition works_for (city : string) (p : weatherProvider) (g : goroutine)
  : Prop :=
  match g with
  | Calling q => q = p
  | SendingTemp k => call p city = Return k None
  | SendingErr err => ∃ k, call p city = Return k (Some err)
  | Exited => ∃ k err, call p city = Return k err
  end.

(** How often the call of goroutine [j] has returned along a schedule. *)
Definition calls (j : nat) (sch : list action) : nat :=
  length (filter (λ a, a = Call j) sch).

Definition called_once (g : option goroutine) : nat :=
  match g with
  | Some (SendingErr _) | Some (SendingTemp _) | Some Exited => 1
  | _ => 0
  end.

(** ** A struct with two fields *)

Section TwoFields.

Import Json.

Variable key_matches : string -> string -> bool.

(** What [decode_geoLocation] and [decode_conf] do with a member: the
    first of the two fields whose name matches the key takes the value. *)
Definition two_fields {T U V} (name1 : string) (dec1 : decoder U)
  (proj1 : T -> U) (name2 : string) (dec2 : decoder V) (proj2 : T -> V)
  (mk : U -> V -> T) : string -> decoder T :=
  fun k j old =>
    if key_matches name1 k
    then let '(v, err) := dec1 j (proj1 old) in (mk v (proj2 old), err)
    else if key_matches name2 k
    then let '(v, err) := dec2 j (proj2 old) in (mk (proj1 old) v, err)
    else (old, None).

End TwoFields.

(** ** What conf.json holds *)

(** What a string field that starts empty makes of a member: the string,
    nothing for [null], and no value for anything else. *)
Definition key_text (v : Json.json) : option string :=
  match v with
  | Json.JString s => Some s
  | Json.JNull => Some ""
  | _ => None
  end.

(** A configuration file with more members than main.go reads. *)
Definition conf_members : list (string * Json.json) :=
  [("Port", Json.JNumber 8080);
   ("ForecastIo", Json.JObject [("ApiKey", Json.JString "fio")]);
   ("WeatherUnderground",
    Json.JObject [("Plan", Json.JString "free");
                  ("ApiKey", Json.JString "wu")])].

(** ** A network for the examples *)

(** The pages of a small web: every other request fails. *)
Fixpoint web (pages : list (string * Json.json)) (url : string) : response :=
  match pages with
  | [] => GetError (TransportError "no such host")
  | (u, j) :: pages' =>
      if String.eqb u url then Response (Json.Document j) else web pages' url
  end.

(** Two coordinates and how they are printed. *)
Definition two_coordinates (x : float) : string :=
  if PrimFloat.eqb x 59.5 then "59.5"
  else if PrimFloat.eqb x 10.75 then "10.75"
  else "0".

Definition owm_answer : list (string * Json.json) :=
  [("cod", Json.JNumber 200);
   ("main", Json.JObject [("humidity", Json.JNumber 81);
                          ("temp", Json.JNumber 281.5)]);
   ("name", Json.JString "Oslo")].

Definition wu_answer : list (string * Json.json) :=
  [("current_observation",
    Json.JObject [("weather", Json.JString "Overcast");
                  ("temp_c", Json.JNumber 8.5)])].

Definition geo_answer : list (string * Json.json) :=
  [("results",
    Json.JArray
      [Json.JObject
         [("formatted_address", Json.JString "Oslo, Norway");
          ("geometry",
           Json.JObject
             [("location", Json.JObject [("lat", Json.JNumber 59.5);
                                         ("lng", Json.JNumber 10.75)])])];
       Json.JObject [("formatted_address", Json.JString "Oslo, MN, USA")]]);
   ("status", Json.JString "OK")].

Definition fio_answer : list (string * Json.json) :=
  [("timezone", Json.JString "Europe/Oslo");
   ("currently", Json.JObject [("summary", Json.JString "Overcast");
                               ("temperature", Json.JNumber 8.5)])].

Definition oslo_web : string -> response :=
  web [("http://api.openweathermap.org/data/2.5/weather?q=Oslo",
        Json.JObject owm_answer);
       ("http://api.wunderground.com/api/wu/conditions/q/Oslo.json",
        Json.JObject wu_answer);
       ("https://maps.googleapis.com/maps/api/geocode/json?address=Oslo",
        Json.JObject geo_answer);
       ("https://api.forecast.io/forecast/fio/59.5,10.75?units=si",
        Json.JObject fio_answer)].





(** * Part II: theorems *)

(** ** float64: facts from the IEEE specification *)

Section Float64.

Local Open Scope Z_scope.

(** The number of bits of a positive number. *)
Lemma digits2_log2 (m : positive) :
  Zpos (SpecFloat.digits2_pos m) = Z.log2 (Zpos m) + 1.
Proof.
  induction m as [m IH|m IH|]; simpl SpecFloat.digits2_pos.
  - rewrite Pos2Z.inj_succ, IH.
    change (Zpos m~1) with (2 * Zpos m + 1). rewrite Z.log2_succ_double; lia.
  - rewrite Pos2Z.inj_succ, IH.
    change (Zpos m~0) with (2 * Zpos m). rewrite Z.log2_double; lia.
  - reflexivity.
Qed.

Lemma digits2_bounds (m : positive) :
  2 ^ (Zpos (SpecFloat.digits2_pos m) - 1) <= Zpos m
  < 2 ^ Zpos (SpecFloat.digits2_pos m).
Proof.
  rewrite digits2_log2.
  replace (Z.log2 (Zpos m) + 1 - 1) with (Z.log2 (Zpos m)) by lia.
  replace (Z.log2 (Zpos m) + 1) with (Z.succ (Z.log2 (Zpos m))) by lia.
  apply Z.log2_spec. lia.
Qed.

(** Shifting a mantissa to the left. *)
Lemma iter_xO_pow (m d : positive) :
  Zpos (Pos.iter xO m d) = Zpos m * 2 ^ Zpos d.
Proof.
  rewrite <- Z.shiftl_mul_pow2 by lia. simpl.
  apply (Pos.iter_swap_gen _ _ Zpos xO (Z.mul 2)). reflexivity.
Qed.

Lemma shl_align_value (m : positive) (e e' : Z) :
  e' <= e ->
  snd (SpecFloat.shl_align m e e') = e' ∧
  Zpos (fst (SpecFloat.shl_align m e e')) = Zpos m * 2 ^ (e - e').
Proof.
  intros He. unfold SpecFloat.shl_align.
  destruct (e' - e) as [|d|d] eqn:E; simpl.
  - assert (e = e') as -> by lia. rewrite Z.sub_diag. split; lia.
  - lia.
  - split; [done|]. rewrite iter_xO_pow. f_equal. f_equal. lia.
Qed.

End Float64.

(** ** Exact sums do not depend on the order *)

Section Exact.

Local Open Scope Z_scope.

Lemma finite_valid x s m e :
  Prim2SF x = S754_finite s m e ->
  e = Z.max (Zpos (SpecFloat.digits2_pos m) + e - 53) (-1074) ∧ e <= 971.
Proof.
  intros H. pose proof (Prim2SF_valid x) as V. rewrite H in V.
  simpl in V. unfold SpecFloat.bounded, SpecFloat.canonical_mantissa in V.
  apply andb_prop in V as [V1 V2].
  apply Z.eqb_eq in V1. apply Z.leb_le in V2.
  unfold SpecFloat.fexp, SpecFloat.emin, prec, emax in *. lia.
Qed.

Lemma total_permutation l1 l2 : l1 ≡ₚ l2 -> total l1 = total l2.
Proof. induction 1; simpl; lia. Qed.

Lemma scaled_finite_nonzero x s m e :
  Prim2SF x = S754_finite s m e ->
  ∃ z, scaled x = Some z ∧ z ≠ 0 ∧ (0 < z <-> s = false).
Proof.
  intros H. destruct (finite_valid x s m e H) as [He _].
  unfold scaled. rewrite H. eexists. split; [done|].
  assert (0 < 2 ^ (e + 1074)) by (apply Z.pow_pos_nonneg; lia).
  destruct s; simpl; split; try nia; split; try done; nia.
Qed.

(** A finite float64 other than -0 is determined by its value. *)
Lemma scaled_inj x y z :
  scaled x = Some z -> scaled y = Some z ->
  Prim2SF x ≠ S754_zero true -> Prim2SF y ≠ S754_zero true ->
  x = y.
Proof.
  intros Hx Hy Nx Ny. apply Prim2SF_inj.
  pose proof (scaled_finite_nonzero x) as Fx.
  pose proof (scaled_finite_nonzero y) as Fy.
  pose proof (finite_valid x) as Vx. pose proof (finite_valid y) as Vy.
  unfold scaled in *.
  destruct (Prim2SF x) as [[]|?| |sx mx ex]; try done;
    destruct (Prim2SF y) as [[]|?| |sy my ey]; try done.
  - destruct (Fy _ _ _ eq_refl) as (z' & Hz' & Hne & _). congruence.
  - destruct (Fx _ _ _ eq_refl) as (z' & Hz' & Hne & _). congruence.
  - destruct (Fx _ _ _ eq_refl) as (zx & Hzx & _ & Sx).
    destruct (Fy _ _ _ eq_refl) as (zy & Hzy & _ & Sy).
    assert (zx = z) by congruence. assert (zy = z) by congruence. subst zx zy.
    assert (sx = sy) as <-.
    { destruct sx, sy; try done; exfalso; intuition congruence. }
    destruct (Vx _ _ _ eq_refl) as [Hex _].
    destruct (Vy _ _ _ eq_refl) as [Hey _].
    assert (Zpos mx * 2 ^ (ex + 1074) = Zpos my * 2 ^ (ey + 1074)) as E.
    { destruct sx; simpl in Hx, Hy; injection Hx; injection Hy; lia. }
    assert (Z.log2 (Zpos mx) + ex = Z.log2 (Zpos my) + ey) as L.
    { apply (f_equal Z.log2) in E.
      rewrite !Z.log2_mul_pow2 in E by lia. lia. }
    rewrite !digits2_log2 in Hex, Hey.
    assert (ex = ey) as <- by lia.
    assert (0 < 2 ^ (ex + 1074)) by (apply Z.pow_pos_nonneg; lia).
    assert (mx = my) as <- by nia. done.
Qed.

Lemma exact_add_scaled x y :
  exact_add x y = true ->
  ∃ a b, scaled x = Some a ∧ scaled y = Some b ∧
         scaled (F64.add x y) = Some (a + b).
Proof.
  unfold exact_add.
  destruct (scaled x) as [a|]; [|done]. destruct (scaled y) as [b|]; [|done].
  destruct (scaled (F64.add x y)) as [c|]; [|done].
  intros ->%Z.eqb_eq. eauto.
Qed.

Lemma cond_Zopp_mul s a b :
  SpecFloat.cond_Zopp s (a * b) = SpecFloat.cond_Zopp s a * b.
Proof. destruct s; simpl; lia. Qed.

(** The mantissa that [SFadd] rounds, times its unit, is the exact sum. *)
Lemma aligned_sum x y sx mx ex sy my ey :
  Prim2SF x = S754_finite sx mx ex -> Prim2SF y = S754_finite sy my ey ->
  let ez := Z.min ex ey in
  (SpecFloat.cond_Zopp sx (Zpos (fst (SpecFloat.shl_align mx ex ez)))
   + SpecFloat.cond_Zopp sy (Zpos (fst (SpecFloat.shl_align my ey ez))))
  * 2 ^ (ez + 1074)
  = SpecFloat.cond_Zopp sx (Zpos mx) * 2 ^ (ex + 1074)
    + SpecFloat.cond_Zopp sy (Zpos my) * 2 ^ (ey + 1074).
Proof.
  intros Ex Ey ez.
  destruct (finite_valid x _ _ _ Ex) as [Hex _].
  destruct (finite_valid y _ _ _ Ey) as [Hey _].
  destruct (shl_align_value mx ex ez) as [_ ->]; [lia|].
  destruct (shl_align_value my ey ez) as [_ ->]; [lia|].
  rewrite !cond_Zopp_mul, Z.mul_add_distr_r, <- !Z.mul_assoc.
  rewrite <- !Z.pow_add_r by lia.
  by replace (ex - ez + (ez + 1074)) with (ex + 1074) by lia;
     replace (ey - ez + (ez + 1074)) with (ey + 1074) by lia.
Qed.

(** An exact addition does not produce -0 unless it starts from -0. *)
Lemma exact_add_not_neg_zero x y :
  exact_add x y = true ->
  Prim2SF x ≠ S754_zero true ->
  Prim2SF (F64.add x y) ≠ S754_zero true.
Proof.
  intros (a & b & Ha & Hb & Hab)%exact_add_scaled Nx Hz.
  pose proof (aligned_sum x y) as Hsum.
  pose proof (finite_valid x) as Vx. pose proof (finite_valid y) as Vy.
  unfold scaled in Ha, Hb, Hab. rewrite Hz in Hab.
  unfold F64.add in Hz. rewrite FloatAxioms.add_spec in Hz.
  destruct (Prim2SF x) as [[]|?| |sx mx ex]; try done;
    destruct (Prim2SF y) as [[]|?| |sy my ey]; try done.
  specialize (Hsum _ _ _ _ _ _ eq_refl eq_refl).
  unfold SF64add, SpecFloat.SFadd in Hz.
  injection Ha as <-. injection Hb as <-. injection Hab as Hab.
  rewrite <- Hab in Hsum.
  apply Z.mul_eq_0_l in Hsum.
  2:{ apply Z.pow_nonzero; [lia|].
      destruct (Vx _ _ _ eq_refl) as [? _].
      destruct (Vy _ _ _ eq_refl) as [? _]. lia. }
  cbv zeta in Hz. rewrite Hsum in Hz. done.
Qed.

(** With exact additions, the float64 sum has the sum of the values, and
    it is not -0. *)
Lemma exact_from_total acc l a :
  exact_from acc l = true -> scaled acc = Some a ->
  Prim2SF acc ≠ S754_zero true ->
  scaled (foldl F64.add acc l) = Some (a + total l) ∧
  Prim2SF (foldl F64.add acc l) ≠ S754_zero true.
Proof.
  revert acc a. induction l as [|t l IH]; intros acc a He Ha Nz; simpl.
  - rewrite Z.add_0_r. done.
  - simpl in He. apply andb_prop in He as [H1 H2].
    pose proof (exact_add_not_neg_zero acc t H1 Nz) as Nz'.
    destruct (exact_add_scaled acc t H1) as (a' & b & Ha' & Hb & Hab).
    assert (a' = a) as -> by congruence.
    destruct (IH _ _ H2 Hab Nz') as [IH1 IH2].
    split; [|done]. rewrite IH1. unfold value. rewrite Hb. simpl.
    f_equal. lia.
Qed.

(** Two orders of the same temperatures, each added up without rounding,
    give the same float64 sum. *)
Lemma exact_sum_permutation l1 l2 :
  l1 ≡ₚ l2 -> exact_sum l1 = true -> exact_sum l2 = true ->
  F64.sum l1 = F64.sum l2.
Proof.
  intros Hp H1 H2.
  destruct (exact_from_total F64.zero l1 0 H1) as [S1 N1]; [done|done|].
  destruct (exact_from_total F64.zero l2 0 H2) as [S2 N2]; [done|done|].
  rewrite (total_permutation _ _ Hp) in S1.
  exact (scaled_inj _ _ _ S1 S2 N1 N2).
Qed.

(** float64 addition is commutative; it is not associative, which is why
    the order of arrival can show in a sum. *)
Lemma F64_add_comm x y : F64.add x y = F64.add y x.
Proof.
  apply Prim2SF_inj. unfold F64.add. rewrite !FloatAxioms.add_spec.
  destruct (Prim2SF x) as [[]|[]| |sx mx ex];
    destruct (Prim2SF y) as [[]|[]| |sy my ey]; try reflexivity.
  unfold SF64add, SpecFloat.SFadd. by rewrite Z.min_comm, Z.add_comm.
Qed.

Example F64_add_not_assoc :
  F64.add (F64.add 280.1 290.2) 300.3 ≠ F64.add 280.1 (F64.add 290.2 300.3).
Proof.
  intros H. apply (f_equal Prim2SF) in H. vm_compute in H. discriminate H.
Qed.

End Exact.

(** ** Conversion of a length, and 0 / N *)

Section Conversion.

Local Open Scope Z_scope.

Lemma shr_1_m r : 0 <= shr_m r -> shr_m (shr_1 r) = shr_m r / 2.
Proof.
  destruct r as [m ? ?]. simpl. intros Hm.
  destruct m as [|[p|p|]|p]; simpl; try done; try lia.
  - apply Z.div_unique with (r := 1); lia.
  - apply Z.div_unique with (r := 0); lia.
Qed.

Lemma iter_shr_1_m (n : positive) r :
  0 <= shr_m r ->
  shr_m (SpecFloat.iter_pos shr_1 n r) = shr_m r / 2 ^ Zpos n.
Proof.
  revert r. induction n as [n IH|n IH|]; intros r Hr; simpl SpecFloat.iter_pos.
  - assert (0 <= shr_m (shr_1 r)) as H1.
    { rewrite shr_1_m by done. apply Z.div_pos; lia. }
    assert (0 <= shr_m (SpecFloat.iter_pos shr_1 n (shr_1 r))) as H2.
    { rewrite IH by done. apply Z.div_pos; lia. }
    rewrite IH, IH, shr_1_m by done.
    rewrite !Z.div_div by lia. f_equal.
    replace (Zpos n~1) with (1 + (Zpos n + Zpos n)) by lia.
    rewrite !Z.pow_add_r, Z.pow_1_r by lia. lia.
  - assert (0 <= shr_m (SpecFloat.iter_pos shr_1 n r)) as H2.
    { rewrite IH by done. apply Z.div_pos; lia. }
    rewrite IH, IH by done.
    rewrite !Z.div_div by lia. f_equal.
    replace (Zpos n~0) with (Zpos n + Zpos n) by lia.
    rewrite Z.pow_add_r by lia. lia.
  - rewrite shr_1_m by done. by rewrite Z.pow_1_r.
Qed.

Lemma shr_value r e n :
  0 <= shr_m r ->
  shr_m (fst (shr r e n)) = shr_m r / 2 ^ Z.max 0 n ∧
  snd (shr r e n) = e + Z.max 0 n.
Proof.
  intros Hr. destruct n as [|n|n]; simpl.
  - rewrite Z.div_1_r. lia.
  - rewrite iter_shr_1_m by done. rewrite Z.max_r by lia. done.
  - rewrite Z.max_l by lia. rewrite Z.div_1_r. lia.
Qed.

Lemma digits2_unique (m : positive) k :
  2 ^ (k - 1) <= Zpos m < 2 ^ k -> Zpos (digits2_pos m) = k.
Proof.
  intros H. rewrite digits2_log2.
  assert (1 <= k).
  { destruct (Z.le_gt_cases 1 k) as [|Hk]; [done|].
    rewrite (Z.pow_neg_r 2 (k - 1)) in H by lia.
    assert (k = 0) as -> by (destruct (Z.lt_trichotomy k 0) as [Hn|[|]];
      [rewrite (Z.pow_neg_r 2 k) in H by lia|..]; lia).
    simpl in H. lia. }
  rewrite (Z.log2_unique (Zpos m) (k - 1)); [lia|lia|].
  by replace (Z.succ (k - 1)) with k by lia.
Qed.

Lemma round_nearest_even_bounds m l :
  m <= round_nearest_even m l <= m + 1.
Proof.
  destruct l as [|[]]; simpl; try lia. destruct (Z.even m); lia.
Qed.

Lemma div_pow2_lower m d s :
  2 ^ (d - 1) <= m -> 0 <= s <= d - 1 -> 2 ^ (d - 1 - s) <= m / 2 ^ s.
Proof.
  intros Hm Hs. apply Z.div_le_lower_bound; [apply Z.pow_pos_nonneg; lia|].
  rewrite <- Z.pow_add_r by lia. by replace (s + (d - 1 - s)) with (d - 1) by lia.
Qed.

(** Rounding a positive mantissa in the normal range gives a finite
    number or an infinity of the same sign: never a zero, never a NaN. *)
Lemma binary_round_aux_positive sx (m : positive) e :
  -1074 <= Zpos (digits2_pos m) + e - 53 ->
  (∃ m' e', binary_round_aux prec emax sx (Zpos m) e loc_Exact
            = S754_finite sx m' e') ∨
  binary_round_aux prec emax sx (Zpos m) e loc_Exact = S754_infinity sx.
Proof.
  intros Hrange. unfold binary_round_aux, shr_fexp.
  set (d := Zpos (digits2_pos m)) in *.
  pose proof (digits2_bounds m) as Hd. fold d in Hd.
  assert (fexp prec emax (Zdigits2 (Zpos m) + e) - e = d - 53) as ->.
  { unfold fexp, emin, prec, emax. simpl Zdigits2. fold d. lia. }
  set (r0 := shr_record_of_loc (Zpos m) loc_Exact).
  destruct (shr_value r0 e (d - 53)) as [Hm1 He1]; [done|].
  destruct (shr r0 e (d - 53)) as [mrs' e']. simpl in Hm1, He1. subst e'.
  set (s := Z.max 0 (d - 53)) in *.
  assert (1 <= d) by (unfold d; lia).
  assert (2 ^ (d - 1 - s) <= shr_m mrs') as Hlow
    by (rewrite Hm1; apply div_pow2_lower; lia).
  assert (0 < 2 ^ (d - 1 - s)) by (apply Z.pow_pos_nonneg; lia).
  pose proof (round_nearest_even_bounds (shr_m mrs') (loc_of_shr_record mrs'))
    as Hm2.
  destruct (round_nearest_even (shr_m mrs') (loc_of_shr_record mrs'))
    as [|p2|p2]; [lia| |lia].
  set (d2 := Zpos (digits2_pos p2)).
  pose proof (digits2_bounds p2) as Hd2. fold d2 in Hd2.
  assert (d - 1 - s < d2).
  { apply (Z.pow_lt_mono_r_iff 2); lia. }
  assert (fexp prec emax (Zdigits2 (Zpos p2) + (e + s)) - (e + s) = d2 - 53)
    as ->.
  { unfold fexp, emin, prec, emax. simpl Zdigits2. fold d2. lia. }
  set (r2 := shr_record_of_loc (Zpos p2) loc_Exact).
  destruct (shr_value r2 (e + s) (d2 - 53)) as [Hm3 He3]; [done|].
  destruct (shr r2 (e + s) (d2 - 53)) as [mrs'' e'']. simpl in Hm3, He3.
  assert (1 <= d2) by (unfold d2; lia).
  assert (2 ^ (d2 - 1 - Z.max 0 (d2 - 53))
          <= Zpos p2 / 2 ^ Z.max 0 (d2 - 53)) as Hlow2
    by (apply div_pow2_lower; lia).
  assert (0 < 2 ^ (d2 - 1 - Z.max 0 (d2 - 53)))
    by (apply Z.pow_pos_nonneg; lia).
  simpl in Hm3. rewrite Hm3.
  destruct (Zpos p2 / 2 ^ Z.max 0 (d2 - 53)) as [|p3|p3]; [lia| |lia].
  destruct (e'' <=? emax - prec); eauto.
Qed.

(** [float64(n)] of a positive Go [int] is positive: finite, or (never, in
    fact) infinite. *)
Lemma of_int_positive (n : nat) :
  0 < Z.of_nat n < 2 ^ 63 ->
  (∃ m e, Prim2SF (F64.of_int n) = S754_finite false m e) ∨
  Prim2SF (F64.of_int n) = S754_infinity false.
Proof.
  intros Hn. unfold F64.of_int. rewrite of_uint63_spec, Uint63.of_Z_spec.
  rewrite Z.mod_small by (change wB with (2 ^ 63); lia).
  destruct (Z.of_nat n) as [|p|p]; [lia| |lia].
  unfold binary_normalize, binary_round.
  set (d := Zpos (digits2_pos p)).
  assert (1 <= d) by (unfold d; lia).
  assert (fexp prec emax (d + 0) = d - 53) as ->
    by (unfold fexp, emin, prec, emax; lia).
  destruct (Z.le_gt_cases (d - 53) 0) as [Hle|Hgt].
  - destruct (shl_align_value p 0 (d - 53) Hle) as [E1 E2].
    destruct (shl_align p 0 (d - 53)) as [mz ez]. simpl in E1, E2. subst ez.
    apply binary_round_aux_positive.
    assert (Zpos (digits2_pos mz) = 53) as ->; [|lia].
    apply digits2_unique. rewrite E2.
    pose proof (digits2_bounds p) as Hd. fold d in Hd.
    replace (0 - (d - 53)) with (53 - d) by lia.
    replace (2 ^ (53 - 1)) with (2 ^ (d - 1) * 2 ^ (53 - d))
      by (rewrite <- Z.pow_add_r by lia; f_equal; lia).
    replace (2 ^ 53) with (2 ^ d * 2 ^ (53 - d))
      by (rewrite <- Z.pow_add_r by lia; f_equal; lia).
    assert (0 < 2 ^ (53 - d)) by (apply Z.pow_pos_nonneg; lia). nia.
  - unfold shl_align. destruct (d - 53 - 0) as [|q|q] eqn:E; try lia.
    apply binary_round_aux_positive. fold d. lia.
Qed.

(** [0 / float64(n)] is [+0] for every positive Go [int] [n]. *)
Lemma zero_div_of_int (n : nat) :
  0 < Z.of_nat n < 2 ^ 63 ->
  F64.div F64.zero (F64.of_int n) = F64.zero.
Proof.
  intros Hn. apply Prim2SF_inj. unfold F64.div.
  rewrite FloatAxioms.div_spec.
  destruct (of_int_positive n Hn) as [(m & e & ->)| ->]; reflexivity.
Qed.

End Conversion.

(** ** The step relation and the step function *)

(** Case analysis on a step, with names for what each rule gives. *)
Ltac step_cases HS :=
  destruct HS as
    [ s k p Hp Hpc Hk
    | s k Hp Hpc Hk
    | s j p k err Hp Hj Hc
    | s j p k Hp Hj Hc
    | s j p msg Hp Hj Hc
    | s j err Hp Hj Hroom
    | s j k Hp Hj Hroom
    | s i sum waited d Hp Hpc Hi Hd Hwd
    | s i sum waited temp rest Hp Hpc Hi Hbuf
    | s i sum waited err rest Hp Hpc Hi Hbuf
    | s i sum Hp Hpc Hi
    | s i sum waited Hp Hpc Hi ];
  repeat match goal with
    | H : pc _ = _ |- _ => rewrite H in *
    | H : buf _ = _ |- _ => rewrite H in *
    end;
  simpl in *.

Lemma step_Step city a s s' : step city a s = Some s' -> Step city a s s'.
Proof.
  unfold step, step_goroutine_call, step_goroutine_send, after_call, send, recv.
  destruct (panicked s) eqn:Hp; [done|].
  destruct a, (pc s) eqn:Hpc; intros H;
    repeat (simplify_option_eq || case_match || case_decide);
    try (destruct_and?; subst; econstructor; by eauto).
Qed.

Lemma Step_step city a s s' : Step city a s s' -> step city a s = Some s'.
Proof.
  unfold step, step_goroutine_call, step_goroutine_send, after_call, send, recv.
  destruct 1;
    repeat match goal with H : _ = _ |- _ => rewrite H; clear H end;
    simpl; repeat case_decide; try done; try (destruct (pc s); done);
    try (exfalso; naive_solver).
Qed.

(** ** Runs *)

Section Runs.

Variable city : string.

Lemma exec_app sch1 sch2 s :
  exec city (sch1 ++ sch2) s = exec city sch1 s ≫= exec city sch2.
Proof.
  revert s. induction sch1 as [|a sch1 IH]; intros s; simpl; [done|].
  destruct (step city a s); simpl; [apply IH|done].
Qed.

Lemma exec_snoc sch a s s1 s' :
  exec city sch s = Some s1 -> step city a s1 = Some s' ->
  exec city (sch ++ [a]) s = Some s'.
Proof. intros H1 H2. rewrite exec_app, H1. simpl. by rewrite H2. Qed.

Lemma exec_snoc_inv sch a s s' :
  exec city (sch ++ [a]) s = Some s' ->
  ∃ s1, exec city sch s = Some s1 ∧ step city a s1 = Some s'.
Proof.
  rewrite exec_app. destruct (exec city sch s) as [s1|]; simpl; [|done].
  destruct (step city a s1) eqn:E; simpl; [|done].
  intros [= <-]. eauto.
Qed.

Lemma received_snoc sch a s s1 :
  exec city sch s = Some s1 ->
  received city (sch ++ [a]) s = received city sch s ++ received_by city a s1.
Proof.
  revert s. induction sch as [|b sch IH]; intros s; simpl.
  - intros [= ->]. unfold received_by.
    destruct (step city a s1) eqn:E; simpl; [by rewrite app_nil_r|].
    destruct a; try done. by rewrite E.
  - destruct (step city b s) as [s2|]; simpl; [|done].
    intros H. by rewrite (IH _ H), app_assoc.
Qed.

Lemma timeouts_snoc sch a :
  timeouts (sch ++ [a]) = timeouts sch + (if decide (a = Timeout) then 1 else 0).
Proof.
  unfold timeouts. rewrite filter_app, length_app. f_equal.
  rewrite filter_cons, filter_nil. by case_decide.
Qed.

Lemma attempts_snoc sch a :
  attempts (sch ++ [a]) = attempts sch + (if is_attempt a then 1 else 0).
Proof.
  unfold attempts. rewrite filter_app, length_app. f_equal.
  rewrite filter_cons, filter_nil. case_decide as H; by destruct (is_attempt a).
Qed.

Lemma timeouts_le_attempts sch : timeouts sch <= attempts sch.
Proof.
  induction sch as [|a sch IH] using rev_ind; [done|].
  rewrite timeouts_snoc, attempts_snoc. case_decide; subst; simpl; lia.
Qed.

Lemma caller_steps_snoc sch a :
  caller_steps (sch ++ [a]) = caller_steps sch + (if is_caller a then 1 else 0).
Proof.
  unfold caller_steps. rewrite filter_app, length_app. f_equal.
  rewrite filter_cons, filter_nil. case_decide as H; by destruct (is_caller a).
Qed.

(** Induction over the runs of a call, last step first. *)
Lemma run_ind (w : multiWeatherProvider) (P : list action -> state -> Prop) :
  P [] (init w) ->
  (∀ sch s a s',
      exec city sch (init w) = Some s -> P sch s -> Step city a s s' ->
      P (sch ++ [a]) s') ->
  ∀ sch s, exec city sch (init w) = Some s -> P sch s.
Proof.
  intros Hinit Hstep sch. induction sch as [|a sch IH] using rev_ind; intros s.
  - by intros [= <-].
  - intros (s1 & H1 & H2)%exec_snoc_inv.
    eapply Hstep; eauto using step_Step.
Qed.

Lemma F64_sum_snoc l x : F64.sum (l ++ [x]) = F64.add (F64.sum l) x.
Proof. unfold F64.sum. by rewrite foldl_app. Qed.

End Runs.

(** ** Invariants of a call *)

Section Invariants.

Variable city : string.

Lemma received_by_Step a s s' :
  Step city a s s' ->
  received_by city a s =
    match a with
    | RecvTemp => take 1 (buf (temps s))
    | _ => []
    end.
Proof.
  intros H%Step_step. unfold received_by.
  destruct a; try done. rewrite H. by destruct (buf (temps s)).
Qed.

(** Replacing one element of a list, seen through [filter] and [≫=]. *)
Lemma filter_length_insert {A} (P : A -> Prop) `{∀ x, Decision (P x)}
  (l : list A) (j : nat) (x y : A) :
  l !! j = Some x ->
  length (filter P (<[j := y]> l)) + (if decide (P x) then 1 else 0)
  = length (filter P l) + (if decide (P y) then 1 else 0).
Proof.
  intros Hj. rewrite insert_take_drop by eauto using lookup_lt_Some.
  rewrite <- (take_drop_middle l j x Hj) at 3.
  rewrite !filter_app, !filter_cons, !length_app.
  repeat case_decide; simpl; lia.
Qed.

Lemma bind_insert_perm {A B} (f : A -> list B) (l : list A) (j : nat) (x y : A) :
  l !! j = Some x ->
  f x ++ (<[j := y]> l ≫= f) ≡ₚ f y ++ (l ≫= f).
Proof.
  intros Hj. rewrite insert_take_drop by eauto using lookup_lt_Some.
  rewrite <- (take_drop_middle l j x Hj) at 3.
  rewrite !bind_app, !bind_cons. solve_Permutation.
Qed.

Lemma exited_insert gs j g g' :
  gs !! j = Some g ->
  exited (<[j := g']> gs) + (if has_exited g then 1 else 0)
  = exited gs + (if has_exited g' then 1 else 0).
Proof.
  intros Hj. unfold exited.
  pose proof (filter_length_insert (λ g, has_exited g = true) gs j g g' Hj) as E.
  simpl in E.
  destruct (has_exited g), (has_exited g'); repeat case_decide; done || lia.
Qed.

Lemma exited_running gs j g :
  gs !! j = Some g -> has_exited g = false -> exited gs < length gs.
Proof.
  intros Hj Hg. unfold exited.
  rewrite <- (take_drop_middle gs j g Hj).
  rewrite filter_app, filter_cons, !length_app. simpl.
  case_decide; [congruence|].
  pose proof (length_filter (λ g, has_exited g = true) (take j gs)).
  pose proof (length_filter (λ g, has_exited g = true) (drop (S j) gs)).
  lia.
Qed.

Lemma exited_app gs g : exited (gs ++ [g]) = exited gs + (if has_exited g then 1 else 0).
Proof.
  unfold exited. rewrite filter_app, length_app, filter_cons, filter_nil.
  case_decide as E; destruct (has_exited g); done.
Qed.

Lemma shape_init w : shape w (init w).
Proof. split; simpl; done || lia. Qed.

Lemma shape_Step w a s s' : shape w s -> Step city a s s' -> shape w s'.
Proof.
  intros [Hw Ht He Hsp Hb Hs] H.
  destruct H;
    repeat match goal with
      | H : pc _ = _ |- _ => rewrite H in *
      | H : buf _ = _ |- _ => rewrite H in *
      end;
    split; simpl in *; rewrite ?length_app, ?length_insert, ?exited_app; simpl;
    try done; try lia.
  - apply lookup_lt_Some in H1. subst w. lia.
  - apply lookup_ge_None in H1. subst w. lia.
  - pose proof (exited_insert _ _ _ (SendingErr err) H0). simpl in *. lia.
  - pose proof (exited_insert _ _ _ (SendingTemp k) H0). simpl in *. lia.
  - pose proof (exited_insert _ _ _ Exited H0). simpl in *. lia.
  - pose proof (exited_insert _ _ _ Exited H0). simpl in *. lia.
Qed.

Lemma reachable_shape w s : reachable city w s -> shape w s.
Proof.
  intros [sch H]. revert sch s H.
  apply (run_ind city w (λ _ s, shape w s)); eauto using shape_init, shape_Step.
Qed.

Lemma ledger_init w : ledger city w [] (init w).
Proof.
  split; simpl.
  - unfold unspawned. simpl. by rewrite drop_0.
  - unfold unspawned. simpl. by rewrite drop_0.
  - unfold account. simpl. repeat split; lia.
Qed.

Lemma successes_cons p w :
  successes city (p :: w) = result_temp (call p city) ++ successes city w.
Proof. done. Qed.

Lemma failures_cons p w :
  failures city (p :: w) = result_err (call p city) ++ failures city w.
Proof. done. Qed.

Lemma ledger_temps_Step w sch a s s' :
  shape w s -> exec city sch (init w) = Some s ->
  received city sch (init w) ++ buf (temps s)
    ++ (goroutines s ≫= pending_temp city) ++ successes city (unspawned s)
  ≡ₚ successes city w ->
  Step city a s s' ->
  received city (sch ++ [a]) (init w) ++ buf (temps s')
    ++ (goroutines s' ≫= pending_temp city) ++ successes city (unspawned s')
  ≡ₚ successes city w.
Proof.
  intros Hshape Hrun Ht HS.
  pose proof (shape_providers _ _ Hshape) as Hw.
  rewrite (received_snoc _ _ _ _ _ Hrun), (received_by_Step _ _ _ HS).
  rewrite <- Ht. clear Ht. unfold unspawned.
  step_cases HS; rewrite ?app_nil_r.
  - rewrite (drop_S _ _ _ Hk), successes_cons, bind_app. simpl.
    rewrite app_nil_r. solve_Permutation.
  - apply lookup_ge_None in Hk. rewrite drop_ge by done. simpl.
    by rewrite !app_nil_r.
  - pose proof (bind_insert_perm (pending_temp city) _ j _ (SendingErr err) Hj) as E.
    simpl in E. rewrite Hc in E. simpl in E. by rewrite E.
  - pose proof (bind_insert_perm (pending_temp city) _ j _ (SendingTemp k) Hj) as E.
    simpl in E. rewrite Hc in E. simpl in E.
    apply Permutation_cons_inv in E. by rewrite E.
  - done.
  - pose proof (bind_insert_perm (pending_temp city) _ j _ Exited Hj) as E.
    simpl in E. by rewrite E.
  - pose proof (bind_insert_perm (pending_temp city) _ j _ Exited Hj) as E.
    simpl in E. rewrite <- E. solve_Permutation.
  - done.
  - rewrite take_0. solve_Permutation.
  - done.
  - done.
  - done.
Qed.

Lemma ledger_errs_Step w a s s' :
  shape w s ->
  buf (errs s) ++ (goroutines s ≫= pending_err city)
    ++ failures city (unspawned s) ⊆ failures city w ->
  Step city a s s' ->
  buf (errs s') ++ (goroutines s' ≫= pending_err city)
    ++ failures city (unspawned s') ⊆ failures city w.
Proof.
  intros Hshape He HS.
  etrans; [clear He|exact He]. unfold unspawned.
  step_cases HS; rewrite ?app_nil_r; try done.
  - rewrite (drop_S _ _ _ Hk), failures_cons, bind_app. simpl.
    rewrite app_nil_r. set_solver.
  - set_solver.
  - pose proof (bind_insert_perm (pending_err city) _ j _ (SendingErr err) Hj) as E.
    simpl in E. rewrite Hc in E. simpl in E.
    apply Permutation_cons_inv in E. by rewrite E.
  - pose proof (bind_insert_perm (pending_err city) _ j _ (SendingTemp k) Hj) as E.
    simpl in E. rewrite Hc in E. simpl in E. by rewrite E.
  - pose proof (bind_insert_perm (pending_err city) _ j _ Exited Hj) as E.
    simpl in E. rewrite <- E. set_solver.
  - pose proof (bind_insert_perm (pending_err city) _ j _ Exited Hj) as E.
    simpl in E. by rewrite E.
  - set_solver.
Qed.

Lemma account_Step w sch a s s' :
  shape w s -> exec city sch (init w) = Some s ->
  buf (errs s) ⊆ failures city w ->
  account city w sch s -> Step city a s s' -> account city w (sch ++ [a]) s'.
Proof.
  intros Hshape Hrun He Ha HS.
  pose proof (shape_providers _ _ Hshape) as Hw.
  unfold account in *.
  rewrite (received_snoc _ _ _ _ _ Hrun), (received_by_Step _ _ _ HS).
  rewrite attempts_snoc, timeouts_snoc.
  step_cases HS; rewrite ?app_nil_r, ?Nat.add_0_r; try done.
  - apply lookup_lt_Some in Hk. subst w. intuition lia.
  - destruct Ha as (? & -> & E & ->). unfold deadline. simpl.
    pose proof (timeouts_le_attempts sch). repeat split; done || lia.
  - destruct Ha as (? & -> & ? & ? & ? & ? & ?). subst w.
    repeat split; try done; lia.
  - rewrite take_0, F64_sum_snoc, length_app. simpl. subst w.
    destruct Ha as (? & -> & ? & ? & ? & ? & ?). unfold deadline in *.
    repeat split; try done; lia.
  - subst w. destruct Ha as (? & -> & ? & ? & ? & ? & ?). unfold deadline in *.
    repeat split; try done; [set_solver|lia|nia].
  - subst w. destruct Ha as (? & -> & ? & ? & ? & ? & ?). unfold deadline in *.
    repeat split; try done; lia.
  - subst w. destruct Ha as (? & -> & ? & ? & ? & ? & ?). unfold deadline in *.
    assert (i = length (providers s)) as Hi' by lia.
    repeat split; try done; try lia.
Qed.

Lemma ledger_Step w sch a s s' :
  shape w s -> exec city sch (init w) = Some s -> ledger city w sch s ->
  Step city a s s' -> ledger city w (sch ++ [a]) s'.
Proof.
  intros Hshape Hrun [Ht He Ha] HS. split.
  - eauto using ledger_temps_Step.
  - eauto using ledger_errs_Step.
  - eapply account_Step; eauto. set_solver.
Qed.

(** Every run of a call keeps the books. *)
Lemma run_ledger w sch s :
  exec city sch (init w) = Some s -> ledger city w sch s.
Proof.
  revert sch s. apply (run_ind city w (ledger city w)).
  - apply ledger_init.
  - intros sch s a s' Hrun IH HS.
    eapply ledger_Step; eauto. apply reachable_shape. by exists sch.
Qed.

End Invariants.

Example three_adapters :
  pc <$> exec "Oslo"
    [Spawn; Spawn; Spawn; Begin; Call 1; Send 1; Call 0; Call 2; Send 2;
     RecvTemp; Wait 20; Send 0; RecvTemp; RecvTemp; Finish]
    (init three)
  = Some (Returned 300 None).
Proof. vm_compute. reflexivity. Qed.

Example one_panics :
  panicked <$> exec "Oslo" [Spawn; Spawn; Call 1]
    (init [succeeding 300; panicking])
  = Some true.
Proof. vm_compute. reflexivity. Qed.

Example one_failing :
  pc <$> exec "Oslo"
    [Spawn; Spawn; Spawn; Begin; Call 1; Send 1; Call 0; Send 0; RecvErr]
    (init [succeeding 300; failing (TransportError "down"); succeeding 298.5])
  = Some (Returned 0 (Some (TransportError "down"))).
Proof. vm_compute. reflexivity. Qed.

(** ** The result of a call *)

Section Results.

Variable city : string.

Lemma elem_of_failures w err :
  err ∈ failures city w <-> ∃ p k, p ∈ w ∧ call p city = Return k (Some err).
Proof.
  unfold failures. rewrite list_elem_of_bind. split.
  - intros (p & He & Hp). exists p. unfold result_err in He.
    destruct (call p city) as [k [e|]|]; set_solver.
  - intros (p & k & Hp & Hc). exists p. rewrite Hc. set_solver.
Qed.

Lemma all_succeed w ts :
  Forall2 (λ p t, call p city = Return t None) w ts ->
  successes city w = ts ∧ failures city w = [] ∧ length w = length ts.
Proof.
  induction 1 as [|p t w ts Hp _ (IH1 & IH2 & IH3)]; [done|].
  rewrite successes_cons, failures_cons, Hp. simpl. by rewrite IH1, IH2, IH3.
Qed.

(** What a successful return is made of. *)
Lemma returned_average w sch s k :
  exec city sch (init w) = Some s -> pc s = Returned k None ->
  let got := received city sch (init w) in
  k = F64.div (F64.sum got) (F64.of_int (length w)) ∧
  length got + timeouts sch = length w ∧
  got ⊆+ successes city w.
Proof.
  intros Hrun Hpc. destruct (run_ledger city w sch s Hrun) as [Ht _ Ha].
  unfold account in Ha. rewrite Hpc in Ha. destruct Ha as (-> & _ & Hlen & _).
  repeat split; [lia|].
  rewrite <- Ht. apply submseteq_inserts_r. done.
Qed.

(** When every provider succeeds, a call without timeouts that has
    returned has received all the temperatures and returns no error. *)
Lemma all_succeed_returned w ts sch s avg err :
  Forall2 (λ p t, call p city = Return t None) w ts ->
  exec city sch (init w) = Some s -> timeouts sch = 0 ->
  pc s = Returned avg err ->
  err = None ∧
  received city sch (init w) ≡ₚ ts ∧
  avg = F64.div (F64.sum (received city sch (init w))) (F64.of_int (length w)).
Proof.
  intros Hall Hrun Hto Hpc.
  destruct (all_succeed w ts Hall) as (Hs & Hf & Hlen).
  destruct err as [err|].
  - destruct (run_ledger city w sch s Hrun) as [_ _ Ha].
    unfold account in Ha. rewrite Hpc, Hf in Ha.
    destruct Ha as (_ & Hin & _). by apply elem_of_nil in Hin.
  - destruct (returned_average w sch s avg Hrun Hpc) as (E & Hl & Hsub).
    rewrite Hs in Hsub. repeat split; [|done].
    apply submseteq_length_Permutation; [done|lia].
Qed.

End Results.

(** C3: when [k] of the [N] attempts time out and the call returns without
    an error, it returns the float64 sum of the [N - k] temperatures it
    received divided by [float64(N)], the number of providers, not by
    [N - k]; the temperatures received are among those the providers
    returned. *)
Theorem timeouts_keep_the_divisor city w sch s avg :
  exec city sch (init w) = Some s ->
  pc s = Returned avg None ->
  let got := received city sch (init w) in
  avg = F64.div (F64.sum got) (F64.of_int (length w)) ∧
  length got = length w - timeouts sch ∧
  timeouts sch <= length w ∧
  got ⊆+ successes city w.
Proof.
  intros Hrun Hpc got.
  destruct (returned_average city w sch s avg Hrun Hpc) as (E & Hlen & Hsub).
  fold got in E, Hlen, Hsub. repeat split; try done; lia.
Qed.

Lemma timeouts_keep_the_divisor_witness :
  ∃ s, exec "Oslo" one_timeout (init three) = Some s ∧
       pc s = Returned 200 None ∧
       let got := received "Oslo" one_timeout (init three) in
       200%float = F64.div (F64.sum got) (F64.of_int (length three)) ∧
       length got = length three - timeouts one_timeout ∧
       timeouts one_timeout <= length three ∧
       got ⊆+ successes "Oslo" three.
Proof.
  eexists. split; [vm_compute; reflexivity|]. split; [vm_compute; reflexivity|].
  eapply timeouts_keep_the_divisor; vm_compute; reflexivity.
Defined.

(** ** After the return, and the caller's budget *)

Section Caller.

Variable city : string.

(** Once the method has returned, only goroutines move: the caller takes
    no further step and nothing is taken out of the channels. *)
Lemma returned_stays sch s s' k err :
  pc s = Returned k err -> exec city sch s = Some s' ->
  pc s' = Returned k err ∧ caller_steps sch = 0 ∧
  buf (temps s) `prefix_of` buf (temps s') ∧
  buf (errs s) `prefix_of` buf (errs s').
Proof.
  revert s. induction sch as [|a sch IH]; intros s Hpc; simpl.
  - intros [= <-]. done.
  - destruct (step city a s) as [s1|] eqn:E; simpl; [|done].
    intros Hrun. apply step_Step in E.
    assert (pc s1 = Returned k err ∧ is_caller a = false ∧
            buf (temps s) `prefix_of` buf (temps s1) ∧
            buf (errs s) `prefix_of` buf (errs s1)) as (H1 & H2 & H3 & H4).
    { destruct E; simpl; try congruence; repeat split; try done;
        by apply prefix_app_r. }
    destruct (IH s1 H1 Hrun) as (? & ? & ? & ?).
    unfold caller_steps in *. rewrite filter_cons. case_decide; [congruence|].
    repeat split; try done; by etrans.
Qed.

Lemma run_budget w sch s :
  exec city sch (init w) = Some s ->
  caller_steps sch + budget (length w) (pc s) <= length w * 1502 + 3.
Proof.
  revert sch s.
  apply (run_ind city w
           (λ sch s, caller_steps sch + budget (length w) (pc s)
                     <= length w * 1502 + 3)).
  - simpl. lia.
  - intros sch s a s' Hrun IH HS. rewrite caller_steps_snoc.
    destruct (run_ledger city w sch s Hrun) as [_ _ Ha].
    pose proof (shape_providers _ _ (reachable_shape city w s (ex_intro _ sch Hrun))).
    unfold account, deadline in *. subst w.
    step_cases HS; try lia.
    apply lookup_lt_Some in Hk. lia.
Qed.

(** The caller is never blocked: while the process lives and the method
    has not returned, the caller has a step it can take, whatever the
    goroutines do. *)
Lemma caller_progress w sch s :
  exec city sch (init w) = Some s -> panicked s = false ->
  (∃ k err, pc s = Returned k err) ∨
  (∃ a, is_caller a = true ∧ is_Some (step city a s)).
Proof.
  intros Hrun Hp. destruct (run_ledger city w sch s Hrun) as [_ _ Ha].
  unfold account in Ha. unfold step. rewrite Hp.
  destruct (pc s) as [k|i sum waited|k err] eqn:Hpc; [| |left; eauto]; right.
  - destruct (providers s !! k) as [p|] eqn:Hk.
    + exists Spawn. simpl. eauto.
    + exists Begin. simpl. eauto.
  - destruct Ha as (_ & _ & _ & _ & Hw & _).
    destruct (decide (i < length (providers s))) as [Hi|Hi].
    + destruct (decide (waited = deadline)) as [->|Hne].
      * exists Timeout. split; [done|]. simpl.
        case_decide; [eauto|naive_solver].
      * exists (Wait (deadline - waited)). split; [done|]. simpl.
        case_decide; [eauto|]. unfold deadline in *. exfalso. intuition lia.
    + exists Finish. split; [done|]. simpl. eauto.
Qed.

End Caller.

(** ** Two schedules that every call admits *)

Section Schedules.

Variable city : string.

Lemma timeouts_app sch1 sch2 : timeouts (sch1 ++ sch2) = timeouts sch1 + timeouts sch2.
Proof. unfold timeouts. by rewrite filter_app, length_app. Qed.

Lemma timeouts_replicate_Spawn n : timeouts (replicate n Spawn) = 0.
Proof. induction n as [|n IH]; [done|]. simpl. exact IH. Qed.


Lemma timeouts_all_late n : timeouts (all_late n) = n.
Proof.
  unfold all_late. rewrite !timeouts_app, timeouts_replicate_Spawn.
  assert (∀ k, timeouts (seq k n ≫= λ _, [Wait deadline; Timeout]) = n) as ->.
  { induction n as [|n IH]; intros k; [done|]. simpl.
    change (S (timeouts (seq (S k) n ≫= λ _, [Wait deadline; Timeout])) = S n).
    by rewrite IH. }
  simpl. unfold timeouts. simpl. lia.
Qed.

Lemma exec_spawn w n :
  n <= length w ->
  exec city (replicate n Spawn) (init w)
  = Some (State w (make (length w)) (make (length w))
            (Calling <$> take n w) (Spawning n) 0 false).
Proof.
  induction n as [|n IH]; intros Hn; [done|].
  rewrite replicate_S_end. eapply exec_snoc; [apply IH; lia|].
  destruct (lookup_lt_is_Some_2 w n) as [p Hp]; [lia|].
  unfold step. cbn. rewrite Hp. cbn. unfold set_pc, set_goroutines. cbn.
  by rewrite (take_S_r _ _ _ Hp), fmap_app.
Qed.

Lemma exec_begin w :
  exec city (replicate (length w) Spawn ++ [Begin]) (init w)
  = Some (State w (make (length w)) (make (length w))
            (Calling <$> w) (Selecting 0 F64.zero 0) 0 false).
Proof.
  eapply exec_snoc; [by apply exec_spawn|].
  unfold step. cbn. rewrite lookup_ge_None_2 by done. unfold set_pc. cbn.
  by rewrite take_ge.
Qed.

Ltac norm_state :=
  unfold set_goroutines, set_temps, set_errs, set_pc, set_clock, set_panicked;
  cbn [providers temps errs goroutines pc clock panicked buf cap make].

Lemma exec_cons_Step a sch s s1 s' :
  Step city a s s1 -> exec city sch s1 = Some s' ->
  exec city (a :: sch) s = Some s'.
Proof. intros H1%Step_step H2. simpl. by rewrite H1. Qed.




Lemma exec_rounds_all_late w n :
  n <= length w ->
  exec city (seq 0 n ≫= λ _, [Wait deadline; Timeout])
    (State w (make (length w)) (make (length w))
       (Calling <$> w) (Selecting 0 F64.zero 0) 0 false)
  = Some (State w (make (length w)) (make (length w))
            (Calling <$> w) (Selecting n F64.zero 0)
            (deadline * N.of_nat n) false).
Proof.
  induction n as [|n IH]; intros Hn.
  - simpl. done.
  - rewrite seq_S, bind_app, exec_app, IH by lia. clear IH.
    cbn [mbind option_bind list_bind app].
    eapply exec_cons_Step.
    { eapply StepWait; [done|done|cbn; lia|done|done]. }
    norm_state.
    eapply exec_cons_Step.
    { eapply StepTimeout; [done|done|cbn; lia]. }
    norm_state. cbn [exec]. do 3 f_equal. unfold deadline. lia.
Qed.

Lemma exec_all_late w :
  exec city (all_late (length w)) (init w)
  = Some (State w (make (length w)) (make (length w))
            (Calling <$> w)
            (Returned (F64.div F64.zero (F64.of_int (length w))) None)
            (deadline * N.of_nat (length w)) false).
Proof.
  unfold all_late.
  rewrite app_assoc, exec_app, exec_begin. cbn [mbind option_bind].
  rewrite exec_app, exec_rounds_all_late by done.
  cbn [mbind option_bind].
  eapply exec_cons_Step.
  { eapply StepFinish; [done|done|]. cbn. lia. }
  done.
Qed.

End Schedules.

(** ** Each goroutine sends once *)

Section Sends.

Variable city : string.

Lemma sends_snoc j sch a :
  sends j (sch ++ [a]) = sends j sch + (if decide (a = Send j) then 1 else 0).
Proof.
  unfold sends. rewrite filter_app, length_app. f_equal.
  rewrite filter_cons, filter_nil. by case_decide.
Qed.

(** A goroutine has sent exactly once when it has ended, and not at all
    before. *)
Lemma run_sends w sch s :
  exec city sch (init w) = Some s ->
  ∀ j, sends j sch = sent_once (goroutines s !! j).
Proof.
  revert sch s.
  apply (run_ind city w (λ sch s, ∀ j, sends j sch = sent_once (goroutines s !! j))).
  - done.
  - intros sch s a s' Hrun IH HS j0. rewrite sends_snoc, IH. clear IH.
    step_cases HS; try lia.
    + destruct (decide (j0 < length (goroutines s))) as [Hlt|Hge].
      * rewrite lookup_app_l by done. lia.
      * rewrite (lookup_ge_None_2 (goroutines s)) by lia.
        destruct (decide (j0 = length (goroutines s))) as [->|Hne].
        -- by rewrite list_lookup_middle.
        -- rewrite lookup_ge_None_2; [done|]. rewrite length_app. simpl. lia.
    + destruct (decide (j = j0)) as [->|Hne].
      * rewrite list_lookup_insert_eq by eauto using lookup_lt_Some.
        rewrite Hj. simpl. lia.
      * rewrite list_lookup_insert_ne by done. lia.
    + destruct (decide (j = j0)) as [->|Hne].
      * rewrite list_lookup_insert_eq by eauto using lookup_lt_Some.
        rewrite Hj. simpl. lia.
      * rewrite list_lookup_insert_ne by done. lia.
    + destruct (decide (j = j0)) as [->|Hne].
      * rewrite decide_True by done.
        rewrite list_lookup_insert_eq by eauto using lookup_lt_Some.
        rewrite Hj. simpl. lia.
      * rewrite decide_False by congruence.
        rewrite list_lookup_insert_ne by done. lia.
    + destruct (decide (j = j0)) as [->|Hne].
      * rewrite decide_True by done.
        rewrite list_lookup_insert_eq by eauto using lookup_lt_Some.
        rewrite Hj. simpl. lia.
      * rewrite decide_False by congruence.
        rewrite list_lookup_insert_ne by done. lia.
Qed.

End Sends.

(** ** The aggregation: theorems *)



(** The scenario of the specification gives 300.0 K. *)
Example three_average :
  F64.div (F64.sum [300; 301.5; 298.5]%float) (F64.of_int 3) = 300%float.
Proof. vm_compute. reflexivity. Qed.

(** C2: when the caller receives an error from [errs], the method returns
    at once with [(0, err)], where [err] is the very value a provider
    returned; only that one value leaves the channels, and from then on
    the caller takes no step, so nothing else is ever received. *)
Theorem first_error_wins city w sch s s' :
  exec city sch (init w) = Some s ->
  step city RecvErr s = Some s' ->
  ∃ err rest,
    buf (errs s) = err :: rest ∧
    (∃ p k, p ∈ w ∧ call p city = Return k (Some err)) ∧
    pc s' = Returned F64.zero (Some err) ∧
    temps s' = temps s ∧ buf (errs s') = rest ∧
    ∀ sch' s'', exec city sch' s' = Some s'' ->
      pc s'' = Returned F64.zero (Some err) ∧
      caller_steps sch' = 0 ∧
      buf (temps s') `prefix_of` buf (temps s'') ∧
      rest `prefix_of` buf (errs s'').
Proof.
  intros Hrun Hstep.
  pose proof (exec_snoc city _ _ _ _ _ Hrun Hstep) as Hrun'.
  destruct (run_ledger city w _ _ Hrun') as [_ _ Ha]. unfold account in Ha.
  apply step_Step in Hstep.
  inversion Hstep as [| | | | | | | | |s0 i sum waited err rest Hp Hpc Hi Hbuf| |];
    subst.
  exists err, rest. simpl in *. destruct Ha as (_ & Hin & _).
  apply elem_of_failures in Hin.
  split_and!; try done.
  intros sch' s'' Hrun''.
  by apply (returned_stays city sch' _ s'' F64.zero (Some err)) in Hrun''.
Qed.

Lemma first_error_wins_witness :
  ∃ s s',
    exec "Oslo" error_first (init second_fails) = Some s ∧
    step "Oslo" RecvErr s = Some s' ∧
    ∃ err rest,
      buf (errs s) = err :: rest ∧
      (∃ p k, p ∈ second_fails ∧ call p "Oslo" = Return k (Some err)) ∧
      pc s' = Returned F64.zero (Some err) ∧
      temps s' = temps s ∧ buf (errs s') = rest ∧
      ∀ sch' s'', exec "Oslo" sch' s' = Some s'' ->
        pc s'' = Returned F64.zero (Some err) ∧
        caller_steps sch' = 0 ∧
        buf (temps s') `prefix_of` buf (temps s'') ∧
        rest `prefix_of` buf (errs s'').
Proof.
  eexists _, _. split; [vm_compute; reflexivity|].
  split; [vm_compute; reflexivity|].
  eapply (first_error_wins "Oslo" second_fails error_first);
    vm_compute; reflexivity.
Defined.

(** C5: the second loop makes at most [N] attempts, and exactly [N] when
    the method returns an average; every attempt ends by a temperature, by
    an error (which returns) or by the deadline of that attempt, counted
    from zero again for each attempt; the time waited in all is at most
    [N * 1500] ms, and the schedule [all_late] waits exactly that long;
    the caller can take only a bounded number of steps and, while the
    process lives, is never blocked before it has returned. *)
Theorem call_terminates city w sch s :
  exec city sch (init w) = Some s ->
  attempts sch <= length w ∧
  (∀ avg, pc s = Returned avg None -> attempts sch = length w) ∧
  (∀ i sum waited, pc s = Selecting i sum waited ->
     attempts sch = i ∧ (waited <= deadline)%N) ∧
  (clock s <= deadline * N.of_nat (length w))%N ∧
  (∃ s', exec city (all_late (length w)) (init w) = Some s' ∧
         (∃ avg, pc s' = Returned avg None) ∧
         clock s' = (deadline * N.of_nat (length w))%N) ∧
  caller_steps sch <= length w * 1502 + 3 ∧
  (panicked s = false ->
     (∃ k err, pc s = Returned k err) ∨
     (∃ a, is_caller a = true ∧ is_Some (step city a s))).
Proof.
  intros Hrun.
  destruct (run_ledger city w sch s Hrun) as [_ _ Ha]. unfold account in Ha.
  pose proof (run_budget city w sch s Hrun) as Hb.
  split_and!.
  - destruct (pc s) as [k|i sum waited|k [err|]]; intuition lia.
  - intros avg Hpc. rewrite Hpc in Ha. tauto.
  - intros i sum waited Hpc. rewrite Hpc in Ha. tauto.
  - unfold deadline in *.
    destruct (pc s) as [k|i sum waited|k [err|]]; intuition lia.
  - eexists. split; [apply exec_all_late|]. simpl. eauto.
  - lia.
  - by apply caller_progress with (w := w) (sch := sch).
Qed.

(** Three providers that are all late: the call waits 4500 ms. *)
Lemma call_terminates_witness :
  ∃ s, exec "Oslo" (all_late 3) (init three) = Some s ∧
  attempts (all_late 3) <= length three ∧
  (∀ avg, pc s = Returned avg None -> attempts (all_late 3) = length three) ∧
  (∀ i sum waited, pc s = Selecting i sum waited ->
     attempts (all_late 3) = i ∧ (waited <= deadline)%N) ∧
  (clock s <= deadline * N.of_nat (length three))%N ∧
  (∃ s', exec "Oslo" (all_late (length three)) (init three) = Some s' ∧
         (∃ avg, pc s' = Returned avg None) ∧
         clock s' = (deadline * N.of_nat (length three))%N) ∧
  caller_steps (all_late 3) <= length three * 1502 + 3 ∧
  (panicked s = false ->
     (∃ k err, pc s = Returned k err) ∨
     (∃ a, is_caller a = true ∧ is_Some (step "Oslo" a s))).
Proof.
  eexists. split; [vm_compute; reflexivity|].
  eapply (call_terminates "Oslo" three (all_late 3)). vm_compute. reflexivity.
Defined.

(** C9: both channels have capacity [N]; a goroutine sends at most once,
    and has sent exactly once when it has ended; at most [N] goroutines
    exist; and a goroutine that is about to send always finds room in its
    channel, in every state of every run, whether or not the caller has
    returned. *)
Theorem senders_never_block city w sch s :
  exec city sch (init w) = Some s ->
  cap (temps s) = length w ∧ cap (errs s) = length w ∧
  length (goroutines s) <= length w ∧
  (∀ j, sends j sch <= 1) ∧
  (∀ j, sends j sch = 1 <-> goroutines s !! j = Some Exited) ∧
  (∀ j k, goroutines s !! j = Some (SendingTemp k) ->
          is_Some (send k (temps s))) ∧
  (∀ j err, goroutines s !! j = Some (SendingErr err) ->
            is_Some (send err (errs s))).
Proof.
  intros Hrun.
  destruct (reachable_shape city w s (ex_intro _ sch Hrun))
    as [Hw Ht He Hsp Hb Hs].
  pose proof (run_sends city w sch s Hrun) as Hsends.
  split_and!; try done.
  - intros j. rewrite Hsends.
    destruct (goroutines s !! j) as [[]|]; simpl; lia.
  - intros j. rewrite Hsends.
    destruct (goroutines s !! j) as [[]|]; simpl; split; done || lia.
  - intros j k Hj. unfold send. rewrite decide_True; [eauto|].
    pose proof (exited_running _ _ _ Hj eq_refl). lia.
  - intros j err Hj. unfold send. rewrite decide_True; [eauto|].
    pose proof (exited_running _ _ _ Hj eq_refl). lia.
Qed.

Lemma senders_never_block_witness :
  ∃ s, exec "Oslo" after_error (init second_fails) = Some s ∧
  pc s = Returned 0 (Some (TransportError "down")) ∧
  goroutines s !! 2 = Some (SendingTemp 298.5) ∧
  cap (temps s) = length second_fails ∧ cap (errs s) = length second_fails ∧
  length (goroutines s) <= length second_fails ∧
  (∀ j, sends j after_error <= 1) ∧
  (∀ j, sends j after_error = 1 <-> goroutines s !! j = Some Exited) ∧
  (∀ j k, goroutines s !! j = Some (SendingTemp k) ->
          is_Some (send k (temps s))) ∧
  (∀ j err, goroutines s !! j = Some (SendingErr err) ->
            is_Some (send err (errs s))).
Proof.
  eexists. split; [vm_compute; reflexivity|].
  split; [vm_compute; reflexivity|]. split; [vm_compute; reflexivity|].
  eapply (senders_never_block "Oslo" second_fails after_error).
  vm_compute. reflexivity.
Defined.

(** ** The adapters and the constructor: theorems *)

Section AdapterFacts.

Import Json.

Variable key_matches : string -> string -> bool.
Variable get : string -> response.
Variable formatFloat : float -> string.


(** A failed request or a body that does not decode makes each adapter
    return the error. *)
Lemma openWeatherMap_get_error w city err :
  get ("http://api.openweathermap.org/data/2.5/weather?q=" +:+ city)
  = GetError err ->
  openWeatherMap_temperature key_matches get w city = Return F64.zero (Some err).
Proof. unfold openWeatherMap_temperature. by intros ->. Qed.

Lemma openWeatherMap_malformed w city err :
  get ("http://api.openweathermap.org/data/2.5/weather?q=" +:+ city)
  = Response (Malformed err) ->
  openWeatherMap_temperature key_matches get w city = Return F64.zero (Some err).
Proof. unfold openWeatherMap_temperature. by intros ->. Qed.

Lemma weatherUnderground_malformed w city err :
  get ("http://api.wunderground.com/api/" +:+ wu_apiKey w
       +:+ "/conditions/q/" +:+ city +:+ ".json")
  = Response (Malformed err) ->
  weatherUnderground_temperature key_matches get w city
  = Return F64.zero (Some err).
Proof. unfold weatherUnderground_temperature. by intros ->. Qed.

Lemma forecastIo_geocoder_malformed w city err :
  get ("https://maps.googleapis.com/maps/api/geocode/json?address=" +:+ city)
  = Response (Malformed err) ->
  forecastIo_temperature key_matches get formatFloat w city
  = Return F64.zero (Some err).
Proof. unfold forecastIo_temperature. by intros ->. Qed.

(** openWeatherMap and weatherUnderground never panic. *)
Lemma openWeatherMap_returns w city :
  ∃ k err, openWeatherMap_temperature key_matches get w city = Return k err.
Proof.
  unfold openWeatherMap_temperature.
  destruct (get _); [eauto|]. destruct (Decode _ _ _) as [d [err|]]; eauto.
Qed.

Lemma weatherUnderground_returns w city :
  ∃ k err, weatherUnderground_temperature key_matches get w city = Return k err.
Proof.
  unfold weatherUnderground_temperature.
  destruct (get _); [eauto|]. destruct (Decode _ _ _) as [d [err|]]; eauto.
Qed.



End AdapterFacts.

Section AbsentFields.

Import Json.

Variable key_matches : string -> string -> bool.



End AbsentFields.




(** C6: when the geocoder answers [{"results": []}], a body that decodes
    without an error, forecastIo does not return an error: the index
    expression [location.Results[0]] panics.  The goroutine that made the
    call takes the process down: no step is possible afterwards. *)
Theorem forecastIo_panics_without_results key_matches formatFloat
  (w : forecastIo) city :
  let get := λ _ : string,
    Response (Json.Document (Json.JObject [("results", Json.JArray [])])) in
  forecastIo_temperature key_matches get formatFloat w city
  = Panic "runtime error: index out of range [0] with length 0" ∧
  ∃ s, exec city [Spawn; Call 0]
         (init [@Provider forecastIo
                  (forecastIo_temperature key_matches get formatFloat) w])
       = Some s ∧
       panicked s = true ∧ ∀ a, step city a s = None.
Proof.
  intros get.
  assert (forecastIo_temperature key_matches get formatFloat w city
          = Panic "runtime error: index out of range [0] with length 0") as E.
  { unfold forecastIo_temperature, get. simpl. unfold one_field.
    by destruct (key_matches "results" "results"). }
  split; [exact E|].
  eexists. split.
  - simpl. unfold step at 1. simpl. unfold step_goroutine_call, after_call.
    simpl. unfold temperature. rewrite E. reflexivity.
  - split; [done|]. intros a. unfold step. done.
Qed.

(** When the constructor returns an error, the list is nil. *)
Lemma getMultiWeatherProvider_error key_matches get formatFloat open confFile
  mw e :
  getMultiWeatherProvider key_matches get formatFloat open confFile
  = (mw, Some e) ->
  mw = [].
Proof.
  unfold getMultiWeatherProvider.
  destruct (open confFile) as [e'|b]; [by intros [= <- _]|].
  destruct (Json.Decode _ _ _) as [c [e'|]]; by intros [= <- ?].
Qed.

(** C10: when [getMultiWeatherProvider] returns no error it returns three
    providers, and no step of a call changes the list: in every state of
    every run the receiver is the list the constructor built, and the
    divisor of the average is 3. *)
Theorem providers_fixed key_matches get formatFloat open confFile mw :
  getMultiWeatherProvider key_matches get formatFloat open confFile
  = (mw, None) ->
  length mw = 3 ∧
  ∀ city sch s, exec city sch (init mw) = Some s ->
    providers s = mw ∧ length (providers s) = 3 ∧
    cap (temps s) = 3 ∧ cap (errs s) = 3 ∧
    ∀ avg, pc s = Returned avg None ->
      avg = F64.div (F64.sum (received city sch (init mw))) (F64.of_int 3).
Proof.
  unfold getMultiWeatherProvider. intros H.
  destruct (open confFile) as [e|b]; [done|].
  destruct (Json.Decode _ _ _) as [c [e|]]; [done|]. injection H as <-.
  split; [done|].
  intros city sch s Hrun.
  destruct (reachable_shape city _ s (ex_intro _ sch Hrun)) as [Hw Ht He _ _ _].
  rewrite Hw. split_and!; try done.
  intros avg Hpc.
  by destruct (returned_average city _ sch s avg Hrun Hpc) as (-> & _).
Qed.

Lemma providers_fixed_witness :
  ∃ mw,
    getMultiWeatherProvider String.eqb offline (λ _, "") conf_json "conf.json"
    = (mw, None) ∧
    length mw = 3 ∧
    ∀ city sch s, exec city sch (init mw) = Some s ->
      providers s = mw ∧ length (providers s) = 3 ∧
      cap (temps s) = 3 ∧ cap (errs s) = 3 ∧
      ∀ avg, pc s = Returned avg None ->
        avg = F64.div (F64.sum (received city sch (init mw))) (F64.of_int 3).
Proof.
  eexists. split; [vm_compute; reflexivity|].
  eapply (providers_fixed String.eqb offline (λ _, "") conf_json "conf.json").
  vm_compute. reflexivity.
Defined.

(** ** Timeouts only, and the order of arrival *)

Section Orders.

Variable city : string.

Lemma received_none sch s : RecvTemp ∉ sch -> received city sch s = [].
Proof.
  revert s. induction sch as [|a sch IH]; intros s Hn; [done|]. simpl.
  destruct (step city a s) as [s'|] eqn:E; [|done].
  rewrite IH by set_solver.
  unfold received_by. destruct a; try done. set_solver.
Qed.

(** An error is returned only by receiving one. *)
Lemma returned_error_received w sch s k err :
  exec city sch (init w) = Some s -> pc s = Returned k (Some err) ->
  RecvErr ∈ sch.
Proof.
  intros Hrun. revert k err. revert sch s Hrun.
  apply (run_ind city w
           (λ sch s, ∀ k err, pc s = Returned k (Some err) -> RecvErr ∈ sch)).
  - done.
  - intros sch s a s' Hrun IH HS avg e Hfin.
    step_cases HS; try done; set_solver.
Qed.

End Orders.

(** C4: when no temperature and no error is ever received, so that every
    one of the [N >= 1] attempts ends by its deadline, the method returns
    [(0, nil)]: the value [+0] and no error. *)
Theorem all_timeouts_return_zero city w sch s avg err :
  1 <= length w -> (Z.of_nat (length w) < 2 ^ 63)%Z ->
  exec city sch (init w) = Some s ->
  RecvTemp ∉ sch -> RecvErr ∉ sch ->
  pc s = Returned avg err ->
  err = None ∧ avg = F64.zero ∧ timeouts sch = length w.
Proof.
  intros Hn Hint Hrun Ht He Hpc.
  destruct err as [err|].
  { destruct He. eauto using returned_error_received. }
  destruct (returned_average city w sch s avg Hrun Hpc) as (-> & Hlen & _).
  rewrite (received_none city sch _ Ht) in *. simpl in Hlen.
  split_and!; [done| |done].
  apply zero_div_of_int. lia.
Qed.

Lemma all_timeouts_return_zero_witness :
  ∃ s avg err,
    exec "Oslo" (all_late 3) (init three) = Some s ∧
    pc s = Returned avg err ∧
    err = None ∧ avg = F64.zero ∧ timeouts (all_late 3) = length three.
Proof.
  eexists _, _, _. split; [vm_compute; reflexivity|].
  split; [vm_compute; reflexivity|].
  eapply (all_timeouts_return_zero "Oslo" three (all_late 3)).
  - vm_compute. lia.
  - vm_compute. reflexivity.
  - vm_compute. reflexivity.
  - vm_compute. set_solver.
  - vm_compute. set_solver.
  - vm_compute. reflexivity.
Defined.

(** C8, as the specification has it, fails: the same three providers, all
    succeeding and none late, give 290.19999999999999 when the
    temperatures arrive in the order of the providers and
    290.20000000000005 when the third arrives before the second. *)
Lemma order_changes_the_average :
  ∃ s1 s2,
    exec "Oslo" (in_order 3) (init skewed) = Some s1 ∧
    exec "Oslo" third_before_second (init skewed) = Some s2 ∧
    timeouts (in_order 3) = 0 ∧ timeouts third_before_second = 0 ∧
    received "Oslo" (in_order 3) (init skewed)
      ≡ₚ received "Oslo" third_before_second (init skewed) ∧
    pc s1 = Returned 290.19999999999999 None ∧
    pc s2 = Returned 290.20000000000005 None ∧
    (290.19999999999999 ≠ 290.20000000000005)%float.
Proof.
  eexists _, _.
  split; [vm_compute; reflexivity|]. split; [vm_compute; reflexivity|].
  split; [vm_compute; reflexivity|]. split; [vm_compute; reflexivity|].
  split; [vm_compute; apply perm_skip, perm_swap|].
  split; [vm_compute; reflexivity|]. split; [vm_compute; reflexivity|].
  intros H. apply (f_equal Prim2SF) in H. vm_compute in H. discriminate H.
Qed.

(** C8, as the code has it: when all providers succeed and no attempt
    times out, two calls receive the same temperatures, possibly in a
    different order, and each returns the float64 sum in its order of
    arrival divided by [float64(N)].  The two results are the same when
    the orders of arrival are the same, and when every addition of both
    sums is exact. *)
Theorem same_average_when_exact city w ts sch1 sch2 s1 s2 avg1 avg2 err1 err2 :
  Forall2 (λ p t, call p city = Return t None) w ts ->
  exec city sch1 (init w) = Some s1 -> exec city sch2 (init w) = Some s2 ->
  timeouts sch1 = 0 -> timeouts sch2 = 0 ->
  pc s1 = Returned avg1 err1 -> pc s2 = Returned avg2 err2 ->
  let got1 := received city sch1 (init w) in
  let got2 := received city sch2 (init w) in
  err1 = None ∧ err2 = None ∧
  got1 ≡ₚ ts ∧ got2 ≡ₚ ts ∧
  avg1 = F64.div (F64.sum got1) (F64.of_int (length w)) ∧
  avg2 = F64.div (F64.sum got2) (F64.of_int (length w)) ∧
  (got1 = got2 -> avg1 = avg2) ∧
  (exact_sum got1 = true -> exact_sum got2 = true -> avg1 = avg2).
Proof.
  intros Hall Hrun1 Hrun2 Ht1 Ht2 Hpc1 Hpc2 got1 got2.
  destruct (all_succeed_returned city w ts sch1 s1 avg1 err1 Hall Hrun1 Ht1 Hpc1)
    as (-> & P1 & E1).
  destruct (all_succeed_returned city w ts sch2 s2 avg2 err2 Hall Hrun2 Ht2 Hpc2)
    as (-> & P2 & E2).
  fold got1 in P1, E1. fold got2 in P2, E2.
  split_and!; try done.
  - intros E. by rewrite E1, E2, E.
  - intros X1 X2. rewrite E1, E2. f_equal.
    apply exact_sum_permutation; [by rewrite P1, P2|done|done].
Qed.

Lemma same_average_when_exact_witness :
  ∃ s1 s2 avg1 avg2 err1 err2,
    exec "Oslo" (in_order 3) (init three) = Some s1 ∧
    exec "Oslo" third_first (init three) = Some s2 ∧
    pc s1 = Returned avg1 err1 ∧ pc s2 = Returned avg2 err2 ∧
    exact_sum (received "Oslo" (in_order 3) (init three)) = true ∧
    exact_sum (received "Oslo" third_first (init three)) = true ∧
    received "Oslo" (in_order 3) (init three)
      ≠ received "Oslo" third_first (init three) ∧
    let got1 := received "Oslo" (in_order 3) (init three) in
    let got2 := received "Oslo" third_first (init three) in
    err1 = None ∧ err2 = None ∧
    got1 ≡ₚ [300; 301.5; 298.5]%float ∧ got2 ≡ₚ [300; 301.5; 298.5]%float ∧
    avg1 = F64.div (F64.sum got1) (F64.of_int (length three)) ∧
    avg2 = F64.div (F64.sum got2) (F64.of_int (length three)) ∧
    (got1 = got2 -> avg1 = avg2) ∧
    (exact_sum got1 = true -> exact_sum got2 = true -> avg1 = avg2).
Proof.
  eexists _, _, _, _, _, _.
  split; [vm_compute; reflexivity|]. split; [vm_compute; reflexivity|].
  split; [vm_compute; reflexivity|]. split; [vm_compute; reflexivity|].
  split; [vm_compute; reflexivity|]. split; [vm_compute; reflexivity|].
  split.
  { intros H. apply (f_equal (λ l, Prim2SF <$> l)) in H. vm_compute in H.
    discriminate H. }
  eapply (same_average_when_exact "Oslo" three [300; 301.5; 298.5]%float
            (in_order 3) third_first).
  - repeat constructor.
  - vm_compute. reflexivity.
  - vm_compute. reflexivity.
  - vm_compute. reflexivity.
  - vm_compute. reflexivity.
  - vm_compute. reflexivity.
  - vm_compute. reflexivity.
Defined.

(** ** The request handler: the city in the path *)

Section Paths.

Variable sep : Ascii.ascii.

Lemma cut_Some s a b :
  cut sep s = Some (a, b) ->
  s = a +:+ String sep b ∧ occurrences sep a = 0 ∧
  occurrences sep s = S (occurrences sep b).
Proof.
  revert a. induction s as [|c s IH]; intros a; simpl; [done|].
  destruct (Ascii.eqb c sep) eqn:E.
  - intros [= <- <-]. apply Ascii.eqb_eq in E as ->. done.
  - destruct (cut sep s) as [[a' b']|]; [|done]. intros [= <- <-].
    destruct (IH a' eq_refl) as (-> & H1 & H2). simpl. rewrite E.
    split_and!; [done|done|lia].
Qed.

Lemma cut_None s : cut sep s = None <-> occurrences sep s = 0.
Proof.
  induction s as [|c s IH]; simpl; [done|].
  destruct (Ascii.eqb c sep); [split; [done|lia]|].
  destruct (cut sep s) as [[a b]|]; simpl; [|tauto].
  split; [done|]. intros H. apply IH in H. done.
Qed.

Lemma SplitN_nonempty s n : SplitN s sep (S n) ≠ [].
Proof. destruct n; simpl; [done|]. by destruct (cut sep s) as [[a b]|]. Qed.

Lemma SplitN_length s n : length (SplitN s sep n) <= n.
Proof.
  revert s. induction n as [|n IH]; intros s; simpl; [done|].
  destruct n; [simpl; lia|].
  destruct (cut sep s) as [[a b]|]; [|simpl; lia].
  specialize (IH b). simpl in *. lia.
Qed.

(** Joining the pieces gives the string back. *)
Lemma Join_SplitN s n : Join (SplitN s sep (S n)) sep = s.
Proof.
  revert s. induction n as [|n IH]; intros s; [done|].
  change (SplitN s sep (S (S n))) with
    (match cut sep s with
     | None => [s]
     | Some (a, b) => a :: SplitN b sep (S n)
     end).
  destruct (cut sep s) as [[a b]|] eqn:E; [|done].
  apply cut_Some in E as (-> & _ & _).
  pose proof (SplitN_nonempty b n) as Hne. specialize (IH b).
  destruct (SplitN b sep (S n)) as [|x l]; [done|].
  change (Join (a :: x :: l) sep) with (a +:+ String sep (Join (x :: l) sep)).
  by rewrite IH.
Qed.

End Paths.

(** X1: the city of a request is what follows the second ['/'] of the path,
    further slashes included: for the paths the handler is registered for,
    ["/weather/..."], it is the rest of the path, unchanged.  The index
    expression is out of range exactly when the path has fewer than two
    slashes. *)
Theorem path_city_is_the_rest :
  (∀ c, path_city ("/weather/" +:+ c) = Some c) ∧
  (∀ path, path_city path = None <-> occurrences slash path < 2) ∧
  (∀ path c, path_city path = Some c ->
     ∃ a b, path = a +:+ String slash (b +:+ String slash c) ∧
            occurrences slash a = 0 ∧ occurrences slash b = 0).
Proof.
  split_and!.
  - intros c. reflexivity.
  - intros path. unfold path_city.
    change (SplitN path slash 3) with
      (match cut slash path with
       | None => [path]
       | Some (a, b) =>
           a :: match cut slash b with
                | None => [b]
                | Some (a', b') => [a'; b']
                end
       end).
    destruct (cut slash path) as [[a b]|] eqn:E1.
    + apply cut_Some in E1 as (_ & _ & ->).
      destruct (cut slash b) as [[a' b']|] eqn:E2.
      * apply cut_Some in E2 as (_ & _ & ->). simpl. split; [done|lia].
      * apply cut_None in E2 as ->. simpl. split; [lia|done].
    + apply cut_None in E1 as ->. simpl. split; [lia|done].
  - intros path c. unfold path_city.
    change (SplitN path slash 3) with
      (match cut slash path with
       | None => [path]
       | Some (a, b) =>
           a :: match cut slash b with
                | None => [b]
                | Some (a', b') => [a'; b']
                end
       end).
    destruct (cut slash path) as [[a b]|] eqn:E1; [|done].
    destruct (cut slash b) as [[a' b']|] eqn:E2; [|done].
    simpl. intros [= ->].
    apply cut_Some in E1 as (-> & Ha & _).
    apply cut_Some in E2 as (-> & Hb & _). eauto.
Qed.

(** ** The adapters: what they read and what they return *)

Section Reading.

Import Json.

Variable key_matches : string -> string -> bool.
Variable get : string -> response.
Variable formatFloat : float -> string.

Lemma first_error_None err : first_error err None = err.
Proof. by destruct err. Qed.

(** Members that select no field leave the struct and the saved error as
    they are. *)
Lemma foldl_lacks {T U} tag (dec : decoder U) (proj : T -> U) (mk : U -> T)
  members (acc : T * option error) :
  lacks key_matches tag members ->
  foldl (λ acc m,
           let '(v, err) :=
             one_field key_matches tag dec proj mk m.1 m.2 acc.1 in
           (v, first_error acc.2 err)) acc members
  = acc.
Proof.
  intros H. revert acc. induction H as [|m members Hm _ IH]; intros acc; [done|].
  simpl. unfold one_field at 2. rewrite Hm, first_error_None.
  destruct acc. apply IH.
Qed.

(** With exactly one member for the field, the struct gets what the
    decoder of the field makes of that member. *)
Lemma decode_struct_only {T U} name tag (dec : decoder U) (proj : T -> U)
  (mk : U -> T) members v (old : T) :
  only key_matches tag members v ->
  decode_struct name (one_field key_matches tag dec proj mk) (JObject members) old
  = (mk (dec v (proj old)).1, (dec v (proj old)).2).
Proof.
  intros (pre & k & post & -> & Hk & Hpre & Hpost). simpl.
  rewrite foldl_app, (foldl_lacks _ _ _ _ pre) by done. simpl.
  unfold one_field at 2. rewrite Hk. simpl.
  destruct (dec v (proj old)) as [u e]. simpl.
  by rewrite (foldl_lacks _ _ _ _ post).
Qed.

(** X2: openWeatherMap reads the member [temp] of the member [main] and
    ignores all other members; it returns the number it finds there, 0
    when the member is [null], and a type error (with 0) when it is
    anything else. *)
Theorem openWeatherMap_reads_main_temp w city members inner v :
  get ("http://api.openweathermap.org/data/2.5/weather?q=" +:+ city)
  = Response (Document (JObject members)) ->
  only key_matches "main" members (JObject inner) ->
  only key_matches "temp" inner v ->
  openWeatherMap_temperature key_matches get w city
  = match v with
    | JNumber kelvin => Return kelvin None
    | JNull => Return F64.zero None
    | _ => Return F64.zero (Some (UnmarshalTypeError "temp"))
    end.
Proof.
  intros Hget Hmain Htemp. unfold openWeatherMap_temperature. rewrite Hget.
  unfold Decode, decode_owmDoc.
  rewrite (decode_struct_only _ _ _ _ _ _ _ _ Hmain).
  unfold decode_owmMain.
  rewrite (decode_struct_only _ _ _ _ _ _ _ _ Htemp).
  by destruct v.
Qed.

(** X3: weatherUnderground reads [temp_c] inside [current_observation],
    ignores all other members, and adds 273.15 to the number it finds;
    [null] counts as 0 degrees Celsius, anything else is a type error. *)
Theorem weatherUnderground_reads_temp_c w city members inner v :
  get ("http://api.wunderground.com/api/" +:+ wu_apiKey w
       +:+ "/conditions/q/" +:+ city +:+ ".json")
  = Response (Document (JObject members)) ->
  only key_matches "current_observation" members (JObject inner) ->
  only key_matches "temp_c" inner v ->
  weatherUnderground_temperature key_matches get w city
  = match v with
    | JNumber celsius => Return (F64.add celsius F64.kelvin_offset) None
    | JNull => Return (F64.add F64.zero F64.kelvin_offset) None
    | _ => Return F64.zero (Some (UnmarshalTypeError "temp_c"))
    end.
Proof.
  intros Hget Hobs Htemp. unfold weatherUnderground_temperature. rewrite Hget.
  unfold Decode, decode_wuDoc.
  rewrite (decode_struct_only _ _ _ _ _ _ _ _ Hobs).
  unfold decode_wuObservation.
  rewrite (decode_struct_only _ _ _ _ _ _ _ _ Htemp).
  by destruct v.
Qed.

(** X4: openWeatherMap and weatherUnderground never panic, whatever the
    network answers; when they return an error, the value is 0 and the
    error is the one [http.Get] or [Decode] returned. *)
Theorem adapters_return_their_errors (owm : openWeatherMap)
  (wu : weatherUnderground) city :
  let owm_url := "http://api.openweathermap.org/data/2.5/weather?q=" +:+ city in
  let wu_url := "http://api.wunderground.com/api/" +:+ wu_apiKey wu
                +:+ "/conditions/q/" +:+ city +:+ ".json" in
  (∃ k err, openWeatherMap_temperature key_matches get owm city = Return k err) ∧
  (∃ k err, weatherUnderground_temperature key_matches get wu city
            = Return k err) ∧
  (∀ k e, openWeatherMap_temperature key_matches get owm city
          = Return k (Some e) ->
     k = F64.zero ∧
     (get owm_url = GetError e ∨
      ∃ b d, get owm_url = Response b ∧
             Decode (decode_owmDoc key_matches) b
               {| Main := {| Kelvin := F64.zero |} |} = (d, Some e))) ∧
  (∀ k e, weatherUnderground_temperature key_matches get wu city
          = Return k (Some e) ->
     k = F64.zero ∧
     (get wu_url = GetError e ∨
      ∃ b d, get wu_url = Response b ∧
             Decode (decode_wuDoc key_matches) b
               {| Observation := {| Celsius := F64.zero |} |} = (d, Some e))).
Proof.
  intros owm_url wu_url. split_and!.
  - apply openWeatherMap_returns.
  - apply weatherUnderground_returns.
  - unfold openWeatherMap_temperature. fold owm_url. intros k e.
    destruct (get owm_url) as [e'|b]; [intros [= <- <-]; eauto|].
    destruct (Decode _ _ _) as [d [e'|]] eqn:E; intros [= <- <-] || intros [=].
    split; [done|]. right. eauto.
  - unfold weatherUnderground_temperature. fold wu_url. intros k e.
    destruct (get wu_url) as [e'|b]; [intros [= <- <-]; eauto|].
    destruct (Decode _ _ _) as [d [e'|]] eqn:E; intros [= <- <-] || intros [=].
    split; [done|]. right. eauto.
Qed.

(** X5: forecastIo panics exactly when the geocoder's answer decodes
    without an error into no result at all; whenever it returns an error,
    the value is 0. *)
Theorem forecastIo_panics_iff (w : forecastIo) city :
  let geo_url :=
    "https://maps.googleapis.com/maps/api/geocode/json?address=" +:+ city in
  ((∃ msg, forecastIo_temperature key_matches get formatFloat w city
           = Panic msg) <->
   (∃ b loc, get geo_url = Response b ∧
             Decode (decode_geoDoc key_matches) b {| Results := [] |}
             = (loc, None) ∧
             Results loc = [])) ∧
  (∀ k e, forecastIo_temperature key_matches get formatFloat w city
          = Return k (Some e) -> k = F64.zero).
Proof.
  intros geo_url. unfold forecastIo_temperature. fold geo_url.
  destruct (get geo_url) as [e'|b].
  { split; [|by intros k e [= <- _]].
    split; [by intros [msg [=]]|]. by intros (? & ? & [=] & _). }
  destruct (Decode (decode_geoDoc key_matches) b _) as [loc [e'|]] eqn:E.
  { split; [|by intros k e [= <- _]].
    split; [by intros [msg [=]]|].
    intros (b' & loc' & [= <-] & E' & _). congruence. }
  destruct (Results loc) as [|r0 rest] eqn:R.
  { split; [|by intros k e [=]].
    split; [|eauto]. intros _. exists b, loc. done. }
  split.
  - split.
    + destruct (get _) as [?|b2]; [by intros [msg [=]]|].
      destruct (Decode _ b2 _) as [d [?|]]; by intros [msg [=]].
    + intros (b' & loc' & [= <-] & E' & R'). congruence.
  - intros k e. destruct (get _) as [?|b2]; [by intros [= <- _]|].
    destruct (Decode _ b2 _) as [d [?|]]; [by intros [= <- _]|by intros [=]].
Qed.

(** Two ways of cutting a list at one element each. *)
Lemma app_cons_eq_inv {A} (pre post pre' post' : list A) x y :
  pre ++ x :: post = pre' ++ y :: post' ->
  (pre = pre' ∧ x = y ∧ post = post') ∨
  (∃ mid, pre' = pre ++ x :: mid ∧ post = mid ++ y :: post') ∨
  (∃ mid, pre = pre' ++ y :: mid ∧ post' = mid ++ x :: post).
Proof.
  revert pre'. induction pre as [|a pre IH]; intros [|b pre']; simpl; intros E.
  - injection E as <- <-. by left.
  - injection E as <- ->. right. left. by exists pre'.
  - injection E as -> <-. right. right. by exists pre.
  - injection E as <- E.
    destruct (IH _ E) as [(<- & <- & <-)|[[mid [-> ->]]|[mid [-> ->]]]].
    + by left.
    + right. left. by exists mid.
    + right. right. by exists mid.
Qed.

Section Two.

Context {T U V : Type}.
Variables (name1 : string) (dec1 : decoder U) (proj1 : T -> U).
Variables (name2 : string) (dec2 : decoder V) (proj2 : T -> V).
Variable mk : U -> V -> T.

Hypothesis proj1_mk : ∀ a b, proj1 (mk a b) = a.
Hypothesis proj2_mk : ∀ a b, proj2 (mk a b) = b.
Hypothesis apart : ∀ k, key_matches name1 k = true -> key_matches name2 k = false.

Let field := two_fields key_matches name1 dec1 proj1 name2 dec2 proj2 mk.

Let member (acc : T * option error) (m : string * json) : T * option error :=
  let '(v, err) := field m.1 m.2 acc.1 in (v, first_error acc.2 err).

Lemma foldl_lacks_both members acc :
  lacks key_matches name1 members -> lacks key_matches name2 members ->
  foldl member acc members = acc.
Proof.
  intros H1 H2. revert acc.
  induction members as [|m members IH]; intros acc; [done|].
  apply Forall_cons in H1 as [Hm1 H1]. apply Forall_cons in H2 as [Hm2 H2].
  simpl. rewrite <- (IH H1 H2 acc) at 2. f_equal.
  unfold member, field, two_fields. rewrite Hm1, Hm2, first_error_None.
  by destruct acc.
Qed.

Lemma member_first k v acc :
  key_matches name1 k = true ->
  member acc (k, v)
  = (mk (dec1 v (proj1 acc.1)).1 (proj2 acc.1),
     first_error acc.2 (dec1 v (proj1 acc.1)).2).
Proof.
  intros Hk. unfold member, field, two_fields. simpl. rewrite Hk.
  by destruct (dec1 v (proj1 acc.1)).
Qed.

Lemma member_second k v acc :
  key_matches name1 k = false -> key_matches name2 k = true ->
  member acc (k, v)
  = (mk (proj1 acc.1) (dec2 v (proj2 acc.1)).1,
     first_error acc.2 (dec2 v (proj2 acc.1)).2).
Proof.
  intros Hk1 Hk2. unfold member, field, two_fields. simpl. rewrite Hk1, Hk2.
  by destruct (dec2 v (proj2 acc.1)).
Qed.

(** With one member for each of the two fields, in either order, each
    field gets what its decoder makes of its member, and the error is the
    one of the member that comes first. *)
Lemma decode_struct_two name members v1 v2 (old : T) :
  only key_matches name1 members v1 ->
  only key_matches name2 members v2 ->
  let r1 := dec1 v1 (proj1 old) in
  let r2 := dec2 v2 (proj2 old) in
  ∃ e, decode_struct name field (JObject members) old = (mk r1.1 r2.1, e) ∧
       (e = first_error r1.2 r2.2 ∨ e = first_error r2.2 r1.2).
Proof using proj1_mk proj2_mk apart.
  intros (pre & k1 & post & -> & Hk1 & Hpre & Hpost)
         (pre' & k2 & post' & E & Hk2 & Hpre' & Hpost') r1 r2.
  change (decode_struct name field (JObject (pre ++ (k1, v1) :: post)) old)
    with (foldl member (old, None) (pre ++ (k1, v1) :: post)).
  destruct (app_cons_eq_inv _ _ _ _ _ _ E)
    as [(_ & [= -> _] & _)|[[mid [-> ->]]|[mid [-> ->]]]].
  - apply apart in Hk1. congruence.
  - apply Forall_app in Hpre' as [Hpre' H]. apply Forall_cons in H as [_ Hmid'].
    apply Forall_app in Hpost as [Hmid H]. apply Forall_cons in H as [Hk21 Hpost].
    simpl in Hk21.
    exists (first_error r1.2 r2.2). split; [|by left].
    rewrite foldl_app, (foldl_lacks_both pre) by done. simpl.
    rewrite member_first by done. simpl.
    rewrite foldl_app, (foldl_lacks_both mid) by done. simpl.
    rewrite member_second by done. simpl.
    rewrite (foldl_lacks_both post') by done.
    by rewrite proj1_mk, proj2_mk.
  - apply Forall_app in Hpre as [Hpre H]. apply Forall_cons in H as [Hk21 Hmid].
    apply Forall_app in Hpost' as [Hmid' H]. apply Forall_cons in H as [_ Hpost'].
    simpl in Hk21.
    exists (first_error r2.2 r1.2). split; [|by right].
    rewrite <- app_assoc. simpl.
    rewrite foldl_app, (foldl_lacks_both pre') by done. simpl.
    rewrite member_second by done. simpl.
    rewrite foldl_app, (foldl_lacks_both mid) by done. simpl.
    rewrite member_first by done. simpl.
    rewrite (foldl_lacks_both post) by done.
    by rewrite proj1_mk, proj2_mk.
Qed.

End Two.

End Reading.

Section Composite.

Import Json.

Variable key_matches : string -> string -> bool.
Variable get : string -> response.
Variable formatFloat : float -> string.
Variable open : string -> file.

Lemma decode_geoLocation_only location lat lng old :
  (∀ k, key_matches "lat" k = true -> key_matches "lng" k = false) ->
  only key_matches "lat" location (JNumber lat) ->
  only key_matches "lng" location (JNumber lng) ->
  decode_geoLocation key_matches (JObject location) old
  = ({| Latitude := lat; Longitude := lng |}, None).
Proof.
  intros A H1 H2.
  destruct (decode_struct_two key_matches
              "lat" (decode_float64 "lat") Latitude
              "lng" (decode_float64 "lng") Longitude Build_geoLocation
              (λ _ _, eq_refl) (λ _ _, eq_refl) A "location" _ _ _ old H1 H2)
    as (e & E & He).
  simpl in He. by destruct He as [->| ->].
Qed.

(** X6: forecastIo asks the geocoder for the city, prints the coordinates
    of the first result into the forecast request together with its API
    key, and adds 273.15 to the member [temperature] of [currently] in the
    answer.  The other results are not used, but a type error in one of
    them fails the call. *)
Theorem forecastIo_reads_first_result (w : forecastIo) city members first
  others geometry location lat lng answer inner v :
  (∀ k, key_matches "lat" k = true -> key_matches "lng" k = false) ->
  get ("https://maps.googleapis.com/maps/api/geocode/json?address=" +:+ city)
  = Response (Document (JObject members)) ->
  only key_matches "results" members (JArray (JObject first :: others)) ->
  only key_matches "geometry" first (JObject geometry) ->
  only key_matches "location" geometry (JObject location) ->
  only key_matches "lat" location (JNumber lat) ->
  only key_matches "lng" location (JNumber lng) ->
  get ("https://api.forecast.io/forecast/" +:+ fio_apiKey w +:+ "/"
       +:+ formatFloat lat +:+ "," +:+ formatFloat lng +:+ "?units=si")
  = Response (Document (JObject answer)) ->
  only key_matches "currently" answer (JObject inner) ->
  only key_matches "temperature" inner v ->
  forecastIo_temperature key_matches get formatFloat w city
  = match (decode_elements (decode_geoResult key_matches) zero_geoResult
             others []).2 with
    | Some e => Return F64.zero (Some e)
    | None =>
        match v with
        | JNumber celsius => Return (F64.add celsius F64.kelvin_offset) None
        | JNull => Return (F64.add F64.zero F64.kelvin_offset) None
        | _ => Return F64.zero (Some (UnmarshalTypeError "temperature"))
        end
    end.
Proof.
  intros A Hgeo Hres Hgeom Hloc Hlat Hlng Hfio Hcur Htemp.
  assert (decode_geoResult key_matches (JObject first) zero_geoResult
          = ({| Geometry :=
                  {| Location := {| Latitude := lat; Longitude := lng |} |} |},
             None)) as E0.
  { unfold decode_geoResult.
    rewrite (decode_struct_only _ _ _ _ _ _ _ _ _ Hgeom).
    unfold decode_geoGeometry.
    rewrite (decode_struct_only _ _ _ _ _ _ _ _ _ Hloc).
    by rewrite (decode_geoLocation_only _ _ _ _ A Hlat Hlng). }
  assert (decode_fioDoc key_matches (JObject answer)
            {| Currently := {| Temperature := F64.zero |} |}
          = ({| Currently :=
                  {| Temperature :=
                       (decode_float64 "temperature" v F64.zero).1 |} |},
             (decode_float64 "temperature" v F64.zero).2)) as E1.
  { unfold decode_fioDoc.
    rewrite (decode_struct_only _ _ _ _ _ _ _ _ _ Hcur).
    unfold decode_fioCurrently.
    by rewrite (decode_struct_only _ _ _ _ _ _ _ _ _ Htemp). }
  unfold forecastIo_temperature. rewrite Hgeo.
  unfold Decode, decode_geoDoc.
  rewrite (decode_struct_only _ _ _ _ _ _ _ _ _ Hres).
  cbn [decode_slice decode_elements hd tl Results]. rewrite E0.
  destruct (decode_elements _ _ others []) as [vs [e|]]; [done|].
  cbn [fst snd first_error Geometry Location Latitude Longitude].
  rewrite Hfio, E1. by destruct v.
Qed.

(** X7: [getMultiWeatherProvider] hands the member [ApiKey] of the members
    [WeatherUnderground] and [ForecastIo] of the configuration file to the
    two adapters that need a key, whatever else the file holds and in
    whichever order; the list is always openWeatherMap, weatherUnderground,
    forecastIo.  A key that is neither a string nor [null] fails the
    constructor with a type error and no list. *)
Theorem getMultiWeatherProvider_reads_the_keys confFile members wu fio va vb :
  (∀ k, key_matches "WeatherUnderground" k = true ->
        key_matches "ForecastIo" k = false) ->
  open confFile = File (Document (JObject members)) ->
  only key_matches "WeatherUnderground" members (JObject wu) ->
  only key_matches "ForecastIo" members (JObject fio) ->
  only key_matches "ApiKey" wu va ->
  only key_matches "ApiKey" fio vb ->
  getMultiWeatherProvider key_matches get formatFloat open confFile
  = match key_text va, key_text vb with
    | Some a, Some b =>
        ([@Provider _ (openWeatherMap_provider key_matches get)
            Build_openWeatherMap;
          @Provider _ (weatherUnderground_provider key_matches get)
            {| wu_apiKey := a |};
          @Provider _ (forecastIo_provider key_matches get formatFloat)
            {| fio_apiKey := b |}],
         None)
    | _, _ => ([], Some (UnmarshalTypeError "ApiKey"))
    end.
Proof.
  intros A Hopen Hwu Hfio Ha Hb.
  unfold getMultiWeatherProvider. rewrite Hopen. unfold Decode.
  destruct (decode_struct_two key_matches
              "WeatherUnderground" (decode_confKey key_matches "WeatherUnderground")
              WeatherUnderground
              "ForecastIo" (decode_confKey key_matches "ForecastIo") ForecastIo
              Build_conf (λ _ _, eq_refl) (λ _ _, eq_refl) A "" _ _ _
              {| WeatherUnderground := {| ApiKey := "" |};
                 ForecastIo := {| ApiKey := "" |} |} Hwu Hfio)
    as (e & E & He).
  change (decode_conf key_matches) with
    (decode_struct ""
       (two_fields key_matches
          "WeatherUnderground" (decode_confKey key_matches "WeatherUnderground")
          WeatherUnderground
          "ForecastIo" (decode_confKey key_matches "ForecastIo") ForecastIo
          Build_conf)).
  rewrite E. clear E. revert He. unfold decode_confKey.
  rewrite (decode_struct_only _ _ _ _ _ _ _ _ _ Ha).
  rewrite (decode_struct_only _ _ _ _ _ _ _ _ _ Hb).
  by destruct va, vb; simpl; intros [->| ->].
Qed.

(** X8: a configuration file that names neither adapter is accepted: the
    constructor returns the three adapters, two of them with an empty API
    key. *)
Theorem getMultiWeatherProvider_without_keys confFile members :
  open confFile = File (Document (JObject members)) ->
  lacks key_matches "WeatherUnderground" members ->
  lacks key_matches "ForecastIo" members ->
  getMultiWeatherProvider key_matches get formatFloat open confFile
  = ([@Provider _ (openWeatherMap_provider key_matches get)
        Build_openWeatherMap;
      @Provider _ (weatherUnderground_provider key_matches get)
        {| wu_apiKey := "" |};
      @Provider _ (forecastIo_provider key_matches get formatFloat)
        {| fio_apiKey := "" |}],
     None).
Proof.
  intros Hopen Hwu Hfio.
  unfold getMultiWeatherProvider. rewrite Hopen. unfold Decode.
  change (decode_conf key_matches (JObject members) ?c) with
    (foldl (λ acc m,
              let '(v, err) :=
                two_fields key_matches
                  "WeatherUnderground"
                  (decode_confKey key_matches "WeatherUnderground")
                  WeatherUnderground
                  "ForecastIo" (decode_confKey key_matches "ForecastIo")
                  ForecastIo Build_conf m.1 m.2 acc.1 in
              (v, first_error acc.2 err)) (c, None) members).
  by rewrite foldl_lacks_both.
Qed.

End Composite.

(** A member of a concrete object, by its place. *)
Ltac one_member pre k post :=
  exists pre, k, post; unfold lacks;
  split_and!; [reflexivity | reflexivity | repeat constructor
              | repeat constructor].

Lemma openWeatherMap_reads_main_temp_witness :
  openWeatherMap_temperature String.eqb oslo_web Build_openWeatherMap "Oslo"
  = Return 281.5 None.
Proof.
  eapply (openWeatherMap_reads_main_temp String.eqb oslo_web
            Build_openWeatherMap "Oslo" owm_answer
            [("humidity", Json.JNumber 81); ("temp", Json.JNumber 281.5)]
            (Json.JNumber 281.5)).
  - vm_compute; reflexivity.
  - one_member [("cod", Json.JNumber 200)] "main" [("name", Json.JString "Oslo")].
  - one_member [("humidity", Json.JNumber 81)] "temp" (@nil (string * Json.json)).
Defined.

Lemma weatherUnderground_reads_temp_c_witness :
  weatherUnderground_temperature String.eqb oslo_web {| wu_apiKey := "wu" |}
    "Oslo"
  = Return (F64.add 8.5 F64.kelvin_offset) None.
Proof.
  eapply (weatherUnderground_reads_temp_c String.eqb oslo_web
            {| wu_apiKey := "wu" |} "Oslo" wu_answer
            [("weather", Json.JString "Overcast"); ("temp_c", Json.JNumber 8.5)]
            (Json.JNumber 8.5)).
  - vm_compute; reflexivity.
  - one_member (@nil (string * Json.json)) "current_observation"
      (@nil (string * Json.json)).
  - one_member [("weather", Json.JString "Overcast")] "temp_c"
      (@nil (string * Json.json)).
Defined.

Lemma forecastIo_reads_first_result_witness :
  forecastIo_temperature String.eqb oslo_web two_coordinates
    {| fio_apiKey := "fio" |} "Oslo"
  = Return (F64.add 8.5 F64.kelvin_offset) None.
Proof.
  eapply (forecastIo_reads_first_result String.eqb oslo_web two_coordinates
            {| fio_apiKey := "fio" |} "Oslo" geo_answer
            [("formatted_address", Json.JString "Oslo, Norway");
             ("geometry",
              Json.JObject
                [("location", Json.JObject [("lat", Json.JNumber 59.5);
                                            ("lng", Json.JNumber 10.75)])])]
            [Json.JObject [("formatted_address", Json.JString "Oslo, MN, USA")]]
            [("location", Json.JObject [("lat", Json.JNumber 59.5);
                                        ("lng", Json.JNumber 10.75)])]
            [("lat", Json.JNumber 59.5); ("lng", Json.JNumber 10.75)]
            59.5%float 10.75%float fio_answer
            [("summary", Json.JString "Overcast");
             ("temperature", Json.JNumber 8.5)]
            (Json.JNumber 8.5)).
  - intros k H. apply String.eqb_eq in H. subst k. reflexivity.
  - vm_compute; reflexivity.
  - one_member (@nil (string * Json.json)) "results"
      [("status", Json.JString "OK")].
  - one_member [("formatted_address", Json.JString "Oslo, Norway")] "geometry"
      (@nil (string * Json.json)).
  - one_member (@nil (string * Json.json)) "location"
      (@nil (string * Json.json)).
  - one_member (@nil (string * Json.json)) "lat" [("lng", Json.JNumber 10.75)].
  - one_member [("lat", Json.JNumber 59.5)] "lng" (@nil (string * Json.json)).
  - vm_compute; reflexivity.
  - one_member [("timezone", Json.JString "Europe/Oslo")] "currently"
      (@nil (string * Json.json)).
  - one_member [("summary", Json.JString "Overcast")] "temperature"
      (@nil (string * Json.json)).
Defined.

Lemma getMultiWeatherProvider_reads_the_keys_witness :
  getMultiWeatherProvider String.eqb oslo_web two_coordinates
    (λ _, File (Json.Document (Json.JObject conf_members))) "conf.json"
  = ([@Provider _ (openWeatherMap_provider String.eqb oslo_web)
        Build_openWeatherMap;
      @Provider _ (weatherUnderground_provider String.eqb oslo_web)
        {| wu_apiKey := "wu" |};
      @Provider _ (forecastIo_provider String.eqb oslo_web two_coordinates)
        {| fio_apiKey := "fio" |}],
     None).
Proof.
  eapply (getMultiWeatherProvider_reads_the_keys String.eqb oslo_web
            two_coordinates
            (λ _, File (Json.Document (Json.JObject conf_members))) "conf.json"
            conf_members
            [("Plan", Json.JString "free"); ("ApiKey", Json.JString "wu")]
            [("ApiKey", Json.JString "fio")]
            (Json.JString "wu") (Json.JString "fio")).
  - intros k H. apply String.eqb_eq in H. subst k. reflexivity.
  - reflexivity.
  - one_member [("Port", Json.JNumber 8080);
                ("ForecastIo", Json.JObject [("ApiKey", Json.JString "fio")])]
      "WeatherUnderground" (@nil (string * Json.json)).
  - one_member [("Port", Json.JNumber 8080)] "ForecastIo"
      [("WeatherUnderground",
        Json.JObject [("Plan", Json.JString "free");
                      ("ApiKey", Json.JString "wu")])].
  - one_member [("Plan", Json.JString "free")] "ApiKey"
      (@nil (string * Json.json)).
  - one_member (@nil (string * Json.json)) "ApiKey" (@nil (string * Json.json)).
Defined.

Lemma getMultiWeatherProvider_without_keys_witness :
  getMultiWeatherProvider String.eqb oslo_web two_coordinates
    (λ _, File (Json.Document (Json.JObject [("Port", Json.JNumber 8080)])))
    "conf.json"
  = ([@Provider _ (openWeatherMap_provider String.eqb oslo_web)
        Build_openWeatherMap;
      @Provider _ (weatherUnderground_provider String.eqb oslo_web)
        {| wu_apiKey := "" |};
      @Provider _ (forecastIo_provider String.eqb oslo_web two_coordinates)
        {| fio_apiKey := "" |}],
     None).
Proof.
  eapply (getMultiWeatherProvider_without_keys String.eqb oslo_web
            two_coordinates
            (λ _, File (Json.Document (Json.JObject [("Port", Json.JNumber 8080)])))
            "conf.json" [("Port", Json.JNumber 8080)]).
  - reflexivity.
  - unfold lacks. repeat constructor.
  - unfold lacks. repeat constructor.
Defined.

(** ** The goroutines of a call *)

Section Goroutines.

Variable city : string.

(** A goroutine that is calling calls one of the providers of the list. *)
Lemma run_calling w sch s :
  exec city sch (init w) = Some s ->
  ∀ j p, goroutines s !! j = Some (Calling p) -> p ∈ w.
Proof.
  revert sch s.
  apply (run_ind city w
           (λ _ s, ∀ j p, goroutines s !! j = Some (Calling p) -> p ∈ w)).
  - intros j p. done.
  - intros sch s a s' Hrun IH HS j0 p0.
    pose proof (shape_providers _ _
                  (reachable_shape city w s (ex_intro _ sch Hrun))) as Hw.
    step_cases HS; eauto.
    + intros [H|[_ H]]%lookup_app_Some; [eauto|].
      apply list_lookup_singleton_Some in H as [_ [= <-]].
      rewrite <- Hw. by eapply list_elem_of_lookup_2.
    + destruct (decide (j = j0)) as [->|Hne].
      * rewrite list_lookup_insert_eq by eauto using lookup_lt_Some. done.
      * rewrite list_lookup_insert_ne by done. eauto.
    + destruct (decide (j = j0)) as [->|Hne].
      * rewrite list_lookup_insert_eq by eauto using lookup_lt_Some. done.
      * rewrite list_lookup_insert_ne by done. eauto.
    + destruct (decide (j = j0)) as [->|Hne].
      * rewrite list_lookup_insert_eq by eauto using lookup_lt_Some. done.
      * rewrite list_lookup_insert_ne by done. eauto.
    + destruct (decide (j = j0)) as [->|Hne].
      * rewrite list_lookup_insert_eq by eauto using lookup_lt_Some. done.
      * rewrite list_lookup_insert_ne by done. eauto.
Qed.

(** The process dies only of a panic of one of the providers. *)
Lemma run_panicked w sch s :
  exec city sch (init w) = Some s -> panicked s = true ->
  ∃ p msg, p ∈ w ∧ call p city = Panic msg.
Proof.
  revert sch s.
  apply (run_ind city w
           (λ _ s, panicked s = true -> ∃ p msg, p ∈ w ∧ call p city = Panic msg)).
  - done.
  - intros sch s a s' Hrun IH HS.
    pose proof (run_calling w sch s Hrun) as Hin.
    step_cases HS; try congruence. eauto.
Qed.

(** X9: a call takes the process down exactly when one of its providers
    panics for the city: then some schedule lets that happen, and without
    such a provider no schedule does.  After the panic nothing happens any
    more: a caller that has not returned never returns. *)
Theorem process_dies_iff_a_provider_panics w :
  ((∃ sch s, exec city sch (init w) = Some s ∧ panicked s = true) <->
   (∃ p msg, p ∈ w ∧ call p city = Panic msg)) ∧
  (∀ sch s, exec city sch (init w) = Some s -> panicked s = true ->
     ∀ sch' s', exec city sch' s = Some s' -> sch' = [] ∧ s' = s).
Proof.
  split; [split|].
  - intros (sch & s & Hrun & Hp). eauto using run_panicked.
  - intros (p & msg & [j Hj]%list_elem_of_lookup_1 & Hc).
    pose proof (lookup_lt_Some _ _ _ Hj) as Hlt.
    exists (replicate (S j) Spawn ++ [Call j]). eexists. split.
    + eapply exec_snoc; [apply exec_spawn; lia|].
      apply Step_step. eapply StepCallPanic; [done| |exact Hc].
      cbn [goroutines]. rewrite list_lookup_fmap, lookup_take_lt by lia.
      by rewrite Hj.
    + done.
  - intros sch s _ Hp [|a sch'] s'; simpl; [by intros [= <-]|].
    unfold step. by rewrite Hp.
Qed.

Lemma remaining_work_insert gs j g g' :
  gs !! j = Some g ->
  remaining_work (<[j := g']> gs) + work g = remaining_work gs + work g'.
Proof.
  revert j. induction gs as [|g0 gs IH]; intros [|j]; simpl; try done.
  - intros [= ->]. lia.
  - intros H. specialize (IH j H). lia.
Qed.

Lemma remaining_work_zero gs :
  remaining_work gs = 0 -> Forall (λ g, g = Exited) gs.
Proof.
  induction gs as [|g gs IH]; simpl; [done|]. intros H.
  constructor; [destruct g; simpl in H; done || lia|].
  apply IH. lia.
Qed.

Lemma remaining_work_pos gs :
  0 < remaining_work gs -> ∃ j g, gs !! j = Some g ∧ 0 < work g.
Proof.
  induction gs as [|g gs IH]; simpl; [lia|]. intros H.
  destruct (decide (0 < work g)) as [Hg|Hg].
  - by exists 0, g.
  - destruct IH as (j & g' & Hj & Hg'); [lia|].
    by exists (S j), g'.
Qed.

Lemma caller_steps_cons a sch :
  caller_steps (a :: sch) = (if is_caller a then 1 else 0) + caller_steps sch.
Proof.
  unfold caller_steps. rewrite filter_cons.
  destruct (is_caller a); by case_decide.
Qed.

(** X10: when no provider panics, the goroutines a call has started can
    always run to their end, whatever the caller has done and whether or
    not it has returned: from every state of every run, steps of the
    goroutines alone, as many as they have left, end them all.  None of
    them stays behind blocked on a channel. *)
Theorem goroutines_can_finish w sch s :
  Forall (λ p, ∃ k err, call p city = Return k err) w ->
  exec city sch (init w) = Some s ->
  ∃ sch' s',
    exec city sch' s = Some s' ∧
    caller_steps sch' = 0 ∧
    length sch' = remaining_work (goroutines s) ∧
    pc s' = pc s ∧ clock s' = clock s ∧
    length (goroutines s') = length (goroutines s) ∧
    Forall (λ g, g = Exited) (goroutines s').
Proof.
  intros Hw.
  remember (remaining_work (goroutines s)) as n eqn:Hn.
  revert sch s Hn. induction n as [|n IH]; intros sch s Hn Hrun.
  { exists [], s. split_and!; try done. by apply remaining_work_zero. }
  assert (panicked s = false) as Hp.
  { destruct (panicked s) eqn:Hp; [|done].
    destruct (run_panicked w sch s Hrun Hp) as (p & msg & Hin & Hc).
    rewrite Forall_forall in Hw.
    destruct (Hw p Hin) as (k & err & Hc'). congruence. }
  destruct (remaining_work_pos (goroutines s)) as (j & g & Hj & Hg); [lia|].
  pose proof (remaining_work_insert (goroutines s) j g) as Hins.
  destruct (reachable_shape city w s (ex_intro _ sch Hrun))
    as [_ Ht He _ Hb Hs].
  assert (∃ a s1, is_caller a = false ∧ Step city a s s1 ∧
                  remaining_work (goroutines s1) = n ∧
                  pc s1 = pc s ∧ clock s1 = clock s ∧
                  length (goroutines s1) = length (goroutines s))
    as (a & s1 & Ha & HS & Hn1 & Hpc1 & Hclock1 & Hlen1).
  { destruct g as [p|err|k|]; simpl in Hg; [| | |lia].
    - pose proof (run_calling w sch s Hrun j p Hj) as Hin.
      rewrite Forall_forall in Hw.
      destruct (Hw p Hin) as (k & [err|] & Hc).
      + exists (Call j). eexists. split; [done|].
        split; [by eapply StepCallErr|].
        specialize (Hins (SendingErr err) Hj). simpl in *.
        rewrite length_insert. split_and!; try done. lia.
      + exists (Call j). eexists. split; [done|].
        split; [by eapply StepCallTemp|].
        specialize (Hins (SendingTemp k) Hj). simpl in *.
        rewrite length_insert. split_and!; try done. lia.
    - pose proof (exited_running (goroutines s) j _ Hj eq_refl).
      exists (Send j). eexists. split; [done|].
      split; [eapply StepSendErr; [done|exact Hj|lia]|].
      specialize (Hins Exited Hj). simpl in *.
      rewrite length_insert. split_and!; try done. lia.
    - pose proof (exited_running (goroutines s) j _ Hj eq_refl).
      exists (Send j). eexists. split; [done|].
      split; [eapply StepSendTemp; [done|exact Hj|lia]|].
      specialize (Hins Exited Hj). simpl in *.
      rewrite length_insert. split_and!; try done. lia. }
  apply Step_step in HS.
  destruct (IH (sch ++ [a]) s1 (eq_sym Hn1) (exec_snoc city _ _ _ _ _ Hrun HS))
    as (sch' & s' & Hrun' & Hc' & Hl' & Hpc' & Hclock' & Hlen' & Hall).
  exists (a :: sch'), s'. split_and!; try congruence.
  - simpl. by rewrite HS.
  - rewrite caller_steps_cons, Ha. done.
  - simpl. congruence.
Qed.

End Goroutines.

(** ** Where the results are, and how long a call takes *)

Section Whereabouts.

Variable city : string.

Lemma errs_Step w a s s' :
  shape w s ->
  returned_err (pc s) ++ buf (errs s) ++ (goroutines s ≫= pending_err city)
    ++ failures city (unspawned s) ≡ₚ failures city w ->
  Step city a s s' ->
  returned_err (pc s') ++ buf (errs s') ++ (goroutines s' ≫= pending_err city)
    ++ failures city (unspawned s') ≡ₚ failures city w.
Proof.
  intros Hshape He HS.
  pose proof (shape_providers _ _ Hshape) as Hw.
  rewrite <- He. clear He. unfold unspawned.
  step_cases HS; rewrite ?app_nil_r; try done.
  - rewrite (drop_S _ _ _ Hk), failures_cons, bind_app. simpl.
    rewrite app_nil_r. solve_Permutation.
  - apply lookup_ge_None in Hk. rewrite drop_ge by done. simpl.
    by rewrite !app_nil_r.
  - pose proof (bind_insert_perm (pending_err city) _ j _ (SendingErr err) Hj) as E.
    simpl in E. rewrite Hc in E. simpl in E.
    apply Permutation_cons_inv in E. by rewrite E.
  - pose proof (bind_insert_perm (pending_err city) _ j _ (SendingTemp k) Hj) as E.
    simpl in E. rewrite Hc in E. simpl in E. by rewrite E.
  - pose proof (bind_insert_perm (pending_err city) _ j _ Exited Hj) as E.
    simpl in E. rewrite <- E. solve_Permutation.
  - pose proof (bind_insert_perm (pending_err city) _ j _ Exited Hj) as E.
    simpl in E. by rewrite E.
Qed.

Lemma run_errs w sch s :
  exec city sch (init w) = Some s ->
  returned_err (pc s) ++ buf (errs s) ++ (goroutines s ≫= pending_err city)
    ++ failures city (unspawned s) ≡ₚ failures city w.
Proof.
  revert sch s.
  apply (run_ind city w
           (λ _ s, returned_err (pc s) ++ buf (errs s)
                     ++ (goroutines s ≫= pending_err city)
                     ++ failures city (unspawned s) ≡ₚ failures city w)).
  - unfold unspawned. simpl. by rewrite drop_0.
  - intros sch s a s' Hrun IH HS.
    eapply errs_Step; [|exact IH|exact HS].
    apply (reachable_shape city). by exists sch.
Qed.

Lemma all_exited_pending {A} (f : goroutine -> list A) gs :
  f Exited = [] -> Forall (λ g, g = Exited) gs -> gs ≫= f = [].
Proof.
  intros Hf. induction 1 as [|g gs -> _ IH]; [done|].
  rewrite bind_cons, Hf, IH. done.
Qed.

(** X11: every answer of a provider is at exactly one place, in every
    state of every run: a temperature has been received by the caller, or
    waits in [temps], or is still with its goroutine or its provider; an
    error has been returned by the caller, or waits in [errs], or is still
    with its goroutine or its provider.  When all goroutines have ended,
    what the caller did not take is what the channels hold: late results
    are left there. *)
Theorem every_result_is_in_one_place w sch s :
  exec city sch (init w) = Some s ->
  received city sch (init w) ++ buf (temps s)
    ++ (goroutines s ≫= pending_temp city) ++ successes city (unspawned s)
  ≡ₚ successes city w ∧
  returned_err (pc s) ++ buf (errs s)
    ++ (goroutines s ≫= pending_err city) ++ failures city (unspawned s)
  ≡ₚ failures city w ∧
  (length (goroutines s) = length w ->
   Forall (λ g, g = Exited) (goroutines s) ->
   received city sch (init w) ++ buf (temps s) ≡ₚ successes city w ∧
   returned_err (pc s) ++ buf (errs s) ≡ₚ failures city w).
Proof.
  intros Hrun.
  destruct (run_ledger city w sch s Hrun) as [Ht _ _].
  pose proof (run_errs w sch s Hrun) as He.
  split; [done|]. split; [done|]. intros Hlen Hall.
  destruct (reachable_shape city w s (ex_intro _ sch Hrun))
    as [Hw _ _ Hsp _ _].
  assert (unspawned s = []) as Hun.
  { unfold unspawned. destruct (pc s); [|done..].
    rewrite Hw. apply drop_ge. lia. }
  rewrite Hun, (all_exited_pending (pending_temp city)) in Ht by done.
  rewrite Hun, (all_exited_pending (pending_err city)) in He by done.
  simpl in Ht, He. rewrite !app_nil_r in Ht, He.
  done.
Qed.

(** X12: the time a call has waited lies between 1500 ms for each timeout
    and 1500 ms for each attempt, the [select] it is in apart: a timeout
    costs the whole deadline, and an attempt costs no more. *)
Theorem timeouts_cost_the_deadline w sch s :
  exec city sch (init w) = Some s ->
  (deadline * N.of_nat (timeouts sch) + waiting (pc s) <= clock s)%N ∧
  (clock s <= deadline * N.of_nat (attempts sch) + waiting (pc s))%N.
Proof.
  revert sch s.
  apply (run_ind city w
           (λ sch s,
              (deadline * N.of_nat (timeouts sch) + waiting (pc s) <= clock s)%N ∧
              (clock s <= deadline * N.of_nat (attempts sch) + waiting (pc s))%N)).
  - unfold deadline, timeouts, attempts. simpl. lia.
  - intros sch s a s' Hrun [IH1 IH2] HS.
    destruct (run_ledger city w sch s Hrun) as [_ _ Ha].
    pose proof (shape_providers _ _
                  (reachable_shape city w s (ex_intro _ sch Hrun))) as Hw.
    rewrite timeouts_snoc, attempts_snoc.
    unfold account in Ha.
    step_cases HS; unfold deadline in *; try lia.
    rewrite Hw in Hi. lia.
Qed.

(** X13: a call returns an error exactly when the caller has received one
    from [errs]; the value is then 0 and the error is one a provider
    returned for the city.  A failure that is not received before the
    last attempt is not reported. *)
Theorem error_iff_received w sch s :
  exec city sch (init w) = Some s ->
  ((∃ k err, pc s = Returned k (Some err)) <-> RecvErr ∈ sch) ∧
  (∀ k err, pc s = Returned k (Some err) ->
     k = F64.zero ∧ ∃ p k', p ∈ w ∧ call p city = Return k' (Some err)) ∧
  (∀ k, pc s = Returned k None -> RecvErr ∉ sch).
Proof.
  intros Hrun.
  assert (RecvErr ∈ sch -> ∃ k err, pc s = Returned k (Some err)) as Hback.
  { revert sch s Hrun.
    apply (run_ind city w
             (λ sch s, RecvErr ∈ sch -> ∃ k err, pc s = Returned k (Some err))).
    - by intros ?%elem_of_nil.
    - intros sch s a s' Hrun IH HS [Hin|Hin]%elem_of_app.
      + destruct (IH Hin) as (k0 & err0 & Hret).
        step_cases HS; try congruence; eauto.
      + apply list_elem_of_singleton in Hin as <-.
        inversion HS; subst. simpl. eauto. }
  split_and!.
  - split; [|done]. intros (k & err & Hpc).
    by eapply returned_error_received.
  - intros k err Hpc.
    destruct (run_ledger city w sch s Hrun) as [_ _ Ha].
    unfold account in Ha. rewrite Hpc in Ha. destruct Ha as (-> & Hin & _).
    split; [done|]. by apply elem_of_failures.
  - intros k Hpc Hin. destruct (Hback Hin) as (k' & err & Hpc'). congruence.
Qed.

End Whereabouts.

(** ** The handler *)

Section Serving.

Variable key_matches : string -> string -> bool.
Variable get : string -> response.
Variable formatFloat : float -> string.
Variable open : string -> file.
Variable Error : error -> string.


End Serving.


(** X15: on an empty list of providers the call returns, without an error,
    the quotient 0/0: a NaN, which the handler cannot encode, so that it
    sends the header and no document. *)
Theorem no_providers_no_number city :
  (∃ s k, exec city [Begin; Finish] (init []) = Some s ∧
          pc s = Returned k None) ∧
  (∀ sch s k err,
     exec city sch (init []) = Some s -> pc s = Returned k err ->
     err = None ∧ PrimFloat.is_nan k = true ∧
     ∀ Error took,
       respond Error city took k err
       = JsonReply "application/json; charset=utf-8" None).
Proof.
  split; [eexists _, _; split; vm_compute; reflexivity|].
  intros sch s k [e|] Hrun Hpc.
  - destruct (run_ledger city [] sch s Hrun) as [_ _ Ha].
    unfold account in Ha. rewrite Hpc in Ha. destruct Ha as (_ & Hin & _).
    by apply elem_of_nil in Hin.
  - destruct (returned_average city [] sch s k Hrun Hpc) as (-> & Hn & _).
    simpl in Hn.
    destruct (received city sch (init [])) as [|t got]; [|simpl in Hn; lia].
    split; [done|]. split; [vm_compute; reflexivity|].
    intros Error took. unfold respond.
    replace (PrimFloat.is_nan (F64.div (F64.sum []) (F64.of_int (length (@nil weatherProvider)))))
      with true by (vm_compute; reflexivity).
    done.
Qed.

Lemma goroutines_can_finish_witness :
  ∃ s, exec "Oslo" after_error (init second_fails) = Some s ∧
  ∃ sch' s',
    exec "Oslo" sch' s = Some s' ∧
    caller_steps sch' = 0 ∧
    length sch' = remaining_work (goroutines s) ∧
    pc s' = pc s ∧ clock s' = clock s ∧
    length (goroutines s') = length (goroutines s) ∧
    Forall (λ g, g = Exited) (goroutines s').
Proof.
  eexists. split; [vm_compute; reflexivity|].
  eapply (goroutines_can_finish "Oslo" second_fails after_error).
  - unfold second_fails. repeat constructor; by eexists _, _.
  - vm_compute; reflexivity.
Defined.

Lemma every_result_is_in_one_place_witness :
  ∃ s, exec "Oslo" after_error (init second_fails) = Some s ∧
  (received "Oslo" after_error (init second_fails) ++ buf (temps s)
     ++ (goroutines s ≫= pending_temp "Oslo")
     ++ successes "Oslo" (unspawned s)
   ≡ₚ successes "Oslo" second_fails ∧
   returned_err (pc s) ++ buf (errs s)
     ++ (goroutines s ≫= pending_err "Oslo") ++ failures "Oslo" (unspawned s)
   ≡ₚ failures "Oslo" second_fails ∧
   (length (goroutines s) = length second_fails ->
    Forall (λ g, g = Exited) (goroutines s) ->
    received "Oslo" after_error (init second_fails) ++ buf (temps s)
    ≡ₚ successes "Oslo" second_fails ∧
    returned_err (pc s) ++ buf (errs s) ≡ₚ failures "Oslo" second_fails)).
Proof.
  eexists. split; [vm_compute; reflexivity|].
  eapply (every_result_is_in_one_place "Oslo" second_fails after_error).
  vm_compute; reflexivity.
Defined.

Lemma timeouts_cost_the_deadline_witness :
  ∃ s, exec "Oslo" one_timeout (init three) = Some s ∧
  (deadline * N.of_nat (timeouts one_timeout) + waiting (pc s) <= clock s)%N ∧
  (clock s <= deadline * N.of_nat (attempts one_timeout) + waiting (pc s))%N.
Proof.
  eexists. split; [vm_compute; reflexivity|].
  eapply (timeouts_cost_the_deadline "Oslo" three one_timeout).
  vm_compute; reflexivity.
Defined.

Lemma error_iff_received_witness :
  ∃ s, exec "Oslo" after_error (init second_fails) = Some s ∧
  ((∃ k err, pc s = Returned k (Some err)) <-> RecvErr ∈ after_error) ∧
  (∀ k err, pc s = Returned k (Some err) ->
     k = F64.zero ∧
     ∃ p k', p ∈ second_fails ∧ call p "Oslo" = Return k' (Some err)) ∧
  (∀ k, pc s = Returned k None -> RecvErr ∉ after_error).
Proof.
  eexists. split; [vm_compute; reflexivity|].
  eapply (error_iff_received "Oslo" second_fails after_error).
  vm_compute; reflexivity.
Defined.

(** ** One goroutine and one call for each provider *)

Section OneEach.

Variable city : string.

Lemma calls_snoc j sch a :
  calls j (sch ++ [a]) = calls j sch + (if decide (a = Call j) then 1 else 0).
Proof.
  unfold calls. rewrite filter_app, length_app. f_equal.
  rewrite filter_cons, filter_nil. by case_decide.
Qed.

(** X16: goroutine [j] works for provider [j] of the list and for no
    other: it calls that provider, and what it sends is what that
    provider returned for the city. *)
Theorem each_goroutine_has_its_provider w sch s :
  exec city sch (init w) = Some s ->
  ∀ j g, goroutines s !! j = Some g ->
    ∃ p, w !! j = Some p ∧ works_for city p g.
Proof.
  revert sch s.
  apply (run_ind city w
           (λ _ s, ∀ j g, goroutines s !! j = Some g ->
                     ∃ p, w !! j = Some p ∧ works_for city p g)).
  - intros j g. done.
  - intros sch s a s' Hrun IH HS j0 g0.
    destruct (reachable_shape city w s (ex_intro _ sch Hrun))
      as [Hw _ _ Hsp _ _].
    step_cases HS; eauto.
    + intros [H|[Hlen H]]%lookup_app_Some; [eauto|].
      apply list_lookup_singleton_Some in H as [H0 <-].
      exists p. split; [|done]. rewrite <- Hw, <- Hk. f_equal. lia.
    + destruct (decide (j = j0)) as [->|Hne].
      * rewrite list_lookup_insert_eq by eauto using lookup_lt_Some.
        intros [= <-]. destruct (IH _ _ Hj) as (p' & Hp' & <-).
        exists p. simpl. eauto.
      * rewrite list_lookup_insert_ne by done. eauto.
    + destruct (decide (j = j0)) as [->|Hne].
      * rewrite list_lookup_insert_eq by eauto using lookup_lt_Some.
        intros [= <-]. destruct (IH _ _ Hj) as (p' & Hp' & <-).
        exists p. simpl. eauto.
      * rewrite list_lookup_insert_ne by done. eauto.
    + destruct (decide (j = j0)) as [->|Hne].
      * rewrite list_lookup_insert_eq by eauto using lookup_lt_Some.
        intros [= <-]. destruct (IH _ _ Hj) as (p' & Hp' & k & Hc).
        exists p'. simpl. eauto.
      * rewrite list_lookup_insert_ne by done. eauto.
    + destruct (decide (j = j0)) as [->|Hne].
      * rewrite list_lookup_insert_eq by eauto using lookup_lt_Some.
        intros [= <-]. destruct (IH _ _ Hj) as (p' & Hp' & Hc).
        exists p'. simpl in *. eauto.
      * rewrite list_lookup_insert_ne by done. eauto.
Qed.

(** X17: no provider is asked twice: along every run the call of each
    goroutine returns at most once, and while the process lives exactly
    once when the goroutine has gone on to send. *)
Theorem each_provider_called_at_most_once w sch s :
  exec city sch (init w) = Some s ->
  ∀ j, calls j sch <= 1 ∧
       (length w <= j -> calls j sch = 0) ∧
       (panicked s = false -> calls j sch = called_once (goroutines s !! j)).
Proof.
  revert sch s.
  apply (run_ind city w
           (λ sch s, ∀ j, calls j sch <= 1 ∧
                          (length w <= j -> calls j sch = 0) ∧
                          (panicked s = false ->
                           calls j sch = called_once (goroutines s !! j)))).
  - intros j. unfold calls. simpl. split_and!; done || lia.
  - intros sch s a s' Hrun IH HS j0.
    destruct (IH j0) as (IH1 & IH0 & IH2). rewrite calls_snoc.
    destruct (reachable_shape city w s (ex_intro _ sch Hrun))
      as [_ _ _ _ Hb _].
    assert (∀ j g, goroutines s !! j = Some g -> j < length w) as Hlt.
    { intros j g Hj%lookup_lt_Some. lia. }
    clear IH.
    step_cases HS; specialize (IH2 Hp); rewrite IH2 in *; clear IH2;
      try (split_and!; [lia|lia|intros _; lia]).
    + split_and!; [lia|lia|intros _].
      destruct (decide (j0 < length (goroutines s))) as [Hlt0|Hge].
      * rewrite lookup_app_l by done. lia.
      * rewrite (lookup_ge_None_2 (goroutines s)) by lia.
        destruct (decide (j0 = length (goroutines s))) as [->|Hne].
        -- rewrite list_lookup_middle by done. simpl. lia.
        -- rewrite lookup_ge_None_2; [simpl; lia|].
           rewrite length_app. simpl. lia.
    + destruct (decide (j = j0)) as [->|Hne].
      * rewrite decide_True by done.
        rewrite list_lookup_insert_eq by eauto using lookup_lt_Some.
        rewrite Hj. simpl. specialize (Hlt _ _ Hj). split_and!; lia.
      * rewrite decide_False by congruence.
        rewrite list_lookup_insert_ne by done. split_and!; lia.
    + destruct (decide (j = j0)) as [->|Hne].
      * rewrite decide_True by done.
        rewrite list_lookup_insert_eq by eauto using lookup_lt_Some.
        rewrite Hj. simpl. specialize (Hlt _ _ Hj). split_and!; lia.
      * rewrite decide_False by congruence.
        rewrite list_lookup_insert_ne by done. split_and!; lia.
    + destruct (decide (j = j0)) as [->|Hne].
      * rewrite decide_True by done. rewrite Hj. simpl.
        specialize (Hlt _ _ Hj). split_and!; [lia|lia|done].
      * rewrite decide_False by congruence. split_and!; [lia|lia|done].
    + destruct (decide (j = j0)) as [->|Hne].
      * rewrite list_lookup_insert_eq by eauto using lookup_lt_Some.
        rewrite Hj. simpl. specialize (Hlt _ _ Hj). split_and!; lia.
      * rewrite list_lookup_insert_ne by done. split_and!; lia.
    + destruct (decide (j = j0)) as [->|Hne].
      * rewrite list_lookup_insert_eq by eauto using lookup_lt_Some.
        rewrite Hj. simpl. specialize (Hlt _ _ Hj). split_and!; lia.
      * rewrite list_lookup_insert_ne by done. split_and!; lia.
Qed.

End OneEach.

Lemma each_goroutine_has_its_provider_witness :
  ∃ s, exec "Oslo" after_error (init second_fails) = Some s ∧
  ∀ j g, goroutines s !! j = Some g ->
    ∃ p, second_fails !! j = Some p ∧ works_for "Oslo" p g.
Proof.
  eexists. split; [vm_compute; reflexivity|].
  eapply (each_goroutine_has_its_provider "Oslo" second_fails after_error).
  vm_compute; reflexivity.
Defined.

Lemma each_provider_called_at_most_once_witness :
  ∃ s, exec "Oslo" after_error (init second_fails) = Some s ∧
  ∀ j, calls j after_error <= 1 ∧
       (length second_fails <= j -> calls j after_error = 0) ∧
       (panicked s = false ->
        calls j after_error = called_once (goroutines s !! j)).
Proof.
  eexists. split; [vm_compute; reflexivity|].
  eapply (each_provider_called_at_most_once "Oslo" second_fails after_error).
  vm_compute; reflexivity.
Defined.

Lemma adapters_return_their_errors_witness :
  (∃ k err, openWeatherMap_temperature String.eqb offline Build_openWeatherMap
              "Oslo" = Return k err) ∧
  (∃ k err, weatherUnderground_temperature String.eqb offline
              {| wu_apiKey := "wu" |} "Oslo" = Return k err) ∧
  (∀ k e, openWeatherMap_temperature String.eqb offline Build_openWeatherMap
            "Oslo" = Return k (Some e) ->
     k = F64.zero ∧
     (offline ("http://api.openweathermap.org/data/2.5/weather?q=" +:+ "Oslo")
      = GetError e ∨
      ∃ b d, offline ("http://api.openweathermap.org/data/2.5/weather?q="
                      +:+ "Oslo") = Response b ∧
             Json.Decode (decode_owmDoc String.eqb) b
               {| Main := {| Kelvin := F64.zero |} |} = (d, Some e))) ∧
  (∀ k e, weatherUnderground_temperature String.eqb offline
            {| wu_apiKey := "wu" |} "Oslo" = Return k (Some e) ->
     k = F64.zero ∧
     (offline ("http://api.wunderground.com/api/" +:+ "wu"
               +:+ "/conditions/q/" +:+ "Oslo" +:+ ".json") = GetError e ∨
      ∃ b d, offline ("http://api.wunderground.com/api/" +:+ "wu"
                      +:+ "/conditions/q/" +:+ "Oslo" +:+ ".json")
             = Response b ∧
             Json.Decode (decode_wuDoc String.eqb) b
               {| Observation := {| Celsius := F64.zero |} |} = (d, Some e))).
Proof.
  exact (adapters_return_their_errors String.eqb offline Build_openWeatherMap
           {| wu_apiKey := "wu" |} "Oslo").
Defined.
